(** * sitemap-crawler: a shallow embedding of [sitemap-crawler.py]

    The crawler resolves a sitemap hierarchy into a flat list of page URLs
    ([get_urls_from_sitemap]) and then visits every URL once per configured
    language ([visit_url], [process_url_with_all_languages], [crawl]).

    Effects are explicit: every function returns the list of events it
    performs (log lines, outbound GET requests, sleeps) next to its value.
    The libraries the script calls ([requests], [gzip], [ElementTree],
    [BeautifulSoup]) are the fields of an environment record. *)

From Stdlib Require Import QArith.
From stdpp Require Import gmap strings list.

Set Warnings "-register-all".
Local Open Scope string_scope.
Local Open Scope list_scope.

(** ** Values *)

(** Python [bytes]: a sequence of 8-bit characters. *)
Definition bytes := string.

(** Exceptions that reach an [except Exception as e] handler or escape. *)
Inductive exn :=
| HTTPError (status : Z)           (* response.raise_for_status() *)
| ValueError (msg : string)        (* tuple unpacking of a wrong-sized value *)
| KeyError (key : string)          (* dict lookup of a missing key *)
| LibraryError (msg : string).     (* raised inside requests, gzip or ElementTree *)

(** [requests.Response], as far as the script reads it. *)
Record response := Response {
  status_code : Z;
  headers : string → option string;     (* response.headers.get(name) *)
  content : bytes;
  text : string
}.

(** [xml.etree.ElementTree.Element]: tag, text and children. *)
Inductive element :=
| Element (tag : string) (etext : option string) (children : list element).

Definition tag_of (e : element) : string :=
  match e with Element t _ _ => t end.
Definition text_of (e : element) : option string :=
  match e with Element _ t _ => t end.
Definition children_of (e : element) : list element :=
  match e with Element _ _ cs => cs end.

(** The library calls of the script. A call that raises returns [inl]. *)
Record env := Env {
  (* requests.get(url, headers=headers, timeout=timeout) *)
  requests_get : string → list (string * string) → Z → exn + response;
  (* gzip.GzipFile(fileobj=BytesIO(data)).read() *)
  gunzip : bytes → exn + bytes;
  (* ET.fromstring(content) *)
  fromstring : bytes → exn + element;
  (* BeautifulSoup(text, 'html.parser').title: None when the page has no
     <title>, otherwise the element's .string (itself possibly None) *)
  soup_title : string → option (option string)
}.

(** ** Events *)

Inductive level := DEBUG | INFO | WARNING | ERROR.

(** One constructor per format string of the script. *)
Inductive message :=
| FailedToFetch (url : string) (e : exn)
| FailedToParse (e : exn)
| ProcessingSitemap (sitemap_url : string)
| FoundSitemapIndex (n : nat)
| FoundUrlsInSitemap (n : nat) (sitemap_url : string)
| FoundUniqueUrls (n : nat)
| AlreadyVisited (url language_name : string)
| Visiting (url language_name : string)
| SuccessfullyVisited (url language_name : string)
| PageTitle (language_name : string) (title : option string)
| FailedToVisit (url language_name : string) (status : Z)
| ErrorVisiting (url language_name : string) (e : exn)
| CompletedProcessing (url language_name : string)
| NoURLsFound
| StartingCrawl (total_requests n_urls n_languages : nat)
| CrawlCompleted
| LanguageCount (language : string) (count : nat)
| TotalProcessed (total_visited : nat).

(** The argument of [time.sleep]. *)
Inductive duration :=
| Secs (d : Q)                     (* time.sleep(self.delay) *)
| SecsPlusUniform01 (d : Q).       (* time.sleep(self.delay + random.uniform(0, 1)) *)

Inductive event :=
| Log (lv : level) (m : message)
| Get (url : string) (hdrs : list (string * string)) (timeout : Z)
| Sleep (d : duration).

(** How a call ends. [OutOfFuel] stands for a loop that is still running. *)
Inductive outcome (A : Type) :=
| Returned (a : A)
| Raised (e : exn)
| OutOfFuel.
Arguments Returned {A} a.
Arguments Raised {A} e.
Arguments OutOfFuel {A}.

(** ** Configuration *)

(** Languages to crawl with their Accept-Language header values, in the
    order of the dict literal. *)
Definition LANGUAGES : list (string * string) :=
  [ ("French", "fr,fr-FR;q=0.9");
    ("German", "de,de-DE;q=0.9");
    ("Dutch", "nl,nl-NL;q=0.9");
    ("Polish", "pl,pl-PL;q=0.9");
    ("Swedish", "sv,sv-SE;q=0.9");
    ("Finnish", "fi,fi-FI;q=0.9") ].

(** The fields [__init__] sets. The pool size is a positive number: on other
    values [ThreadPoolExecutor] rejects its argument before any task runs.
    The delay is any number the command line gives; [time.sleep] rejects a
    negative one, and the statements that need a sleep to return take
    [0 <= delay] as a hypothesis. [visited_urls] is an insertion-ordered
    dict. *)
Record SitemapCrawler := {
  sitemap_url : string;
  delay : Q;
  timeout : Z;
  max_workers : positive;
  user_agent : string;
  visited_urls : list (string * gset string);
  all_urls : gset string
}.

Definition default_user_agent : string :=
  "Mozilla/5.0 (Windows NT 10.0; Win64; x64) AppleWebKit/537.36 (KHTML, like Gecko) Chrome/99.0.9999.99 Safari/537.36".

Definition accept_value : string :=
  "text/html,application/xhtml+xml,application/xml;q=0.9,image/webp,*/*;q=0.8".

Definition init (sitemap_url : string) (delay : Q) (timeout : Z)
    (max_workers : positive) : SitemapCrawler :=
  {| sitemap_url := sitemap_url; delay := delay; timeout := timeout;
     max_workers := max_workers; user_agent := default_user_agent;
     visited_urls := []; all_urls := ∅ |}.

(** ** String helpers *)

(** [s.endswith(suffix)] *)
Definition endswith (s suffix : string) : bool :=
  String.prefix (String.rev suffix) (String.rev s).

(** [s.replace(old, b'')] for a non-empty [old]: scan left to right and drop
    every non-overlapping occurrence. [skip] counts the characters of an
    occurrence still to drop. *)
Fixpoint remove_all_aux (old : string) (skip : nat) (s : string) : string :=
  match s with
  | EmptyString => EmptyString
  | String c s' =>
      match skip with
      | S k => remove_all_aux old k s'
      | O => if String.prefix old s
             then remove_all_aux old (String.length old - 1) s'
             else String c (remove_all_aux old 0 s')
      end
  end.

Definition remove_all (old s : string) : string := remove_all_aux old 0 s.

Definition sitemap_xmlns : string :=
  String.append "xmlns=" (String.append (String (Ascii.ascii_of_nat 34) "http://www.sitemaps.org/schemas/sitemap/0.9")
                                        (String (Ascii.ascii_of_nat 34) EmptyString)).

(** Truth value of a [bytes | None]: [None] and [b''] are false. *)
Definition truthy (content : option bytes) : bool :=
  match content with
  | Some (String _ _) => true
  | _ => false
  end.

(** ** The insertion-ordered dict [self.visited_urls] *)

(** [d[k]]; [None] stands for KeyError. *)
Fixpoint dict_get (k : string) (d : list (string * gset string)) : option (gset string) :=
  match d with
  | [] => None
  | (k', v) :: d' => if bool_decide (k' = k) then Some v else dict_get k d'
  end.

(** [k in d] *)
Definition dict_mem (k : string) (d : list (string * gset string)) : bool :=
  bool_decide (is_Some (dict_get k d)).

(** [d[k] = v]: an existing key keeps its place, a new one goes last. *)
Fixpoint dict_set (k : string) (v : gset string) (d : list (string * gset string))
    : list (string * gset string) :=
  match d with
  | [] => [(k, v)]
  | (k', v') :: d' =>
      if bool_decide (k' = k) then (k, v) :: d' else (k', v') :: dict_set k v d'
  end.

Definition with_visited_urls (self : SitemapCrawler)
    (d : list (string * gset string)) : SitemapCrawler :=
  {| sitemap_url := sitemap_url self; delay := delay self; timeout := timeout self;
     max_workers := max_workers self; user_agent := user_agent self;
     visited_urls := d; all_urls := all_urls self |}.

(** ** fetch_url *)

Definition raise_for_status (r : response) : option exn :=
  if bool_decide (400 ≤ status_code r < 600)%Z then Some (HTTPError (status_code r)) else None.

Section Crawler.
Variable E : env.

Definition fetch_url (self : SitemapCrawler) (url : string)
    : option bytes * list event :=
  let hdrs := [("User-Agent", user_agent self); ("Accept", accept_value)] in
  let request := Get url hdrs (timeout self) in
  match requests_get E url hdrs (timeout self) with
  | inl e => (None, [request; Log ERROR (FailedToFetch url e)])
  | inr response =>
      match raise_for_status response with
      | Some e => (None, [request; Log ERROR (FailedToFetch url e)])
      | None =>
          if bool_decide (headers response "Content-Encoding" = Some "gzip")
             || endswith url ".gz"
          then match gunzip E (content response) with
               | inl e => (None, [request; Log ERROR (FailedToFetch url e)])
               | inr body => (Some body, [request])
               end
          else (Some (content response), [request])
      end
  end.

(** ** parse_sitemap *)

(** [root.findall('.//tag')]: every element below [root], at any depth, in
    document order, whose tag is [tag]. *)
Fixpoint descendants (e : element) : list element :=
  match e with
  | Element _ _ cs =>
      (fix go (l : list element) : list element :=
         match l with
         | [] => []
         | c :: l' => c :: descendants c ++ go l'
         end) cs
  end.

Definition findall_below (tag : string) (root : element) : list element :=
  List.filter (λ e, bool_decide (tag_of e = tag)) (descendants root).

(** [e.find('tag')]: the first direct child with that tag. *)
Definition find_child (tag : string) (e : element) : option element :=
  List.find (λ c, bool_decide (tag_of c = tag)) (children_of e).

(** The loop body shared by both branches:
    [loc = x.find('loc'); if loc is not None and loc.text: urls.append(loc.text)] *)
Definition loc_texts (entries : list element) : list string :=
  flat_map (λ entry,
      match find_child "loc" entry with
      | Some loc => match text_of loc with
                    | Some (String c s) => [String c s]
                    | _ => []
                    end
      | None => []
      end) entries.

(** What [parse_sitemap] returns: a bare list on one path, a pair on the
    others. *)
Inductive parse_result :=
| EmptyList                                    (* return [] *)
| Pair (urls : list string) (is_index : bool). (* return urls, flag *)

Definition parse_sitemap (content : option bytes) : parse_result * list event :=
  if negb (truthy content) then (EmptyList, [])
  else
    let content := remove_all sitemap_xmlns (default EmptyString content) in
    match fromstring E content with
    | inl e => (Pair [] false, [Log ERROR (FailedToParse e)])
    | inr root =>
        if bool_decide (tag_of root = "sitemapindex")
        then (Pair (loc_texts (findall_below "sitemap" root)) true, [])
        else (Pair (loc_texts (findall_below "url" root)) false, [])
    end.

(** [urls, is_index = value]: unpacking needs exactly two items. *)
Definition unpack2 (r : parse_result) : exn + (list string * bool) :=
  match r with
  | Pair urls is_index => inr (urls, is_index)
  | EmptyList => inl (ValueError "not enough values to unpack (expected 2, got 0)")
  end.

(** ** get_urls_from_sitemap *)

(** One pass of the [while urls_to_process] body, after
    [sitemap_url = urls_to_process.pop(0)]: the new queue, the new
    accumulator and the events, or the exception that escapes. The call
    [time.sleep(self.delay)] of line 123 is recorded as an event; it returns
    when the delay is not negative, which the statements about a pass or a
    run that returns or does not raise take as a hypothesis. *)
Definition while_body (self : SitemapCrawler) (sitemap_url : string)
    (urls_to_process all_page_urls : list string)
    : (exn + list string * list string) * list event :=
  let ev0 := [Log INFO (ProcessingSitemap sitemap_url)] in
  let '(content, ev1) := fetch_url self sitemap_url in
  if negb (truthy content)
  then (inr (urls_to_process, all_page_urls), ev0 ++ ev1)            (* continue *)
  else
    let '(value, ev2) := parse_sitemap content in
    match unpack2 value with
    | inl e => (inl e, ev0 ++ ev1 ++ ev2)
    | inr (urls, is_index) =>
        if is_index
        then (inr (urls_to_process ++ urls, all_page_urls),
              ev0 ++ ev1 ++ ev2 ++
              [Log INFO (FoundSitemapIndex (length urls)); Sleep (Secs (delay self))])
        else (inr (urls_to_process, all_page_urls ++ urls),
              ev0 ++ ev1 ++ ev2 ++
              [Log INFO (FoundUrlsInSitemap (length urls) sitemap_url);
               Sleep (Secs (delay self))])
    end.

(** The [while] loop. It need not end, so it runs on [fuel]: one unit per
    dequeue. *)
Fixpoint while_loop (self : SitemapCrawler) (fuel : nat)
    (urls_to_process all_page_urls : list string)
    : outcome (list string) * list event :=
  match urls_to_process with
  | [] => (Returned all_page_urls, [])
  | sitemap_url :: urls_to_process =>
      match fuel with
      | O => (OutOfFuel, [])
      | S fuel =>
          match while_body self sitemap_url urls_to_process all_page_urls with
          | (inl e, ev) => (Raised e, ev)
          | (inr (urls_to_process, all_page_urls), ev) =>
              let '(r, evs) := while_loop self fuel urls_to_process all_page_urls in
              (r, ev ++ evs)
          end
      end
  end.

(** [list(set(l))]: the distinct members of [l], in the order the set
    yields them. *)
Definition list_set (l : list string) : list string :=
  elements (list_to_set l : gset string).

Definition get_urls_from_sitemap (self : SitemapCrawler) (fuel : nat)
    : outcome (list string) * list event :=
  match while_loop self fuel [sitemap_url self] [] with
  | (Returned all_page_urls, ev) =>
      let unique_urls := list_set all_page_urls in
      (Returned unique_urls, ev ++ [Log INFO (FoundUniqueUrls (length unique_urls))])
  | (r, ev) => (r, ev)
  end.

(** ** visit_url *)

(** Lines 142-166: the request and the [try] block around the call. Each
    branch logs its outcome; nothing leaves the [try]. The sleep of line 161
    is recorded as an event; it returns when the delay is not negative, which
    the statements about the events of a visit take as a hypothesis. *)
Definition visit_request (self : SitemapCrawler)
    (url language_name language_header : string) : list event :=
  let hdrs := [("User-Agent", user_agent self);
               ("Accept-Language", language_header);
               ("Accept", accept_value)] in
  [Log INFO (Visiting url language_name); Get url hdrs (timeout self)] ++
  match requests_get E url hdrs (timeout self) with
  | inl e => [Log ERROR (ErrorVisiting url language_name e)]
  | inr response =>
      if bool_decide (status_code response = 200%Z)
      then
        let title := match soup_title E (text response) with
                     | Some title_string => title_string
                     | None => Some "No title"
                     end in
        [Log INFO (SuccessfullyVisited url language_name);
         Log INFO (PageTitle language_name title);
         Sleep (SecsPlusUniform01 (delay self))]
      else [Log WARNING (FailedToVisit url language_name (status_code response))]
  end.

(** The statements of [visit_url] that touch the shared [self.visited_urls],
    one program point each; worker threads interleave between them. *)
Inductive pc :=
| TestLanguage     (* 133: if language_name not in self.visited_urls: *)
| CreateSet        (* 134:     self.visited_urls[language_name] = set() *)
| TestVisited      (* 136: if url in self.visited_urls[language_name]: return *)
| AddVisited       (* 140: self.visited_urls[language_name].add(url) *)
| Request.         (* 142-166 *)

(** One statement of [visit_url] at program point [at_]: the updated object,
    the next program point ([None]: the call has returned) and the events. *)
Definition visit_url_step (self : SitemapCrawler)
    (url language_name language_header : string) (at_ : pc)
    : (exn + SitemapCrawler * option pc) * list event :=
  match at_ with
  | TestLanguage =>
      if negb (dict_mem language_name (visited_urls self))
      then (inr (self, Some CreateSet), [])
      else (inr (self, Some TestVisited), [])
  | CreateSet =>
      (inr (with_visited_urls self (dict_set language_name ∅ (visited_urls self)),
            Some TestVisited), [])
  | TestVisited =>
      match dict_get language_name (visited_urls self) with
      | None => (inl (KeyError language_name), [])
      | Some visited =>
          if bool_decide (url ∈ visited)
          then (inr (self, None), [Log DEBUG (AlreadyVisited url language_name)])
          else (inr (self, Some AddVisited), [])
      end
  | AddVisited =>
      match dict_get language_name (visited_urls self) with
      | None => (inl (KeyError language_name), [])
      | Some visited =>
          (inr (with_visited_urls self
                  (dict_set language_name (visited ∪ {[url]}) (visited_urls self)),
                Some Request), [])
      end
  | Request =>
      (inr (self, None), visit_request self url language_name language_header)
  end.

(** A call of [visit_url] that no other thread interrupts. Five statements
    at most. *)
Fixpoint visit_url_from (steps : nat) (self : SitemapCrawler)
    (url language_name language_header : string) (at_ : pc)
    : (exn + SitemapCrawler) * list event :=
  match steps with
  | O => (inr self, [])
  | S steps =>
      match visit_url_step self url language_name language_header at_ with
      | (inl e, ev) => (inl e, ev)
      | (inr (self, None), ev) => (inr self, ev)
      | (inr (self, Some at_), ev) =>
          let '(r, evs) := visit_url_from steps self url language_name language_header at_ in
          (r, ev ++ evs)
      end
  end.

Definition visit_url (self : SitemapCrawler)
    (url language_name language_header : string)
    : (exn + SitemapCrawler) * list event :=
  visit_url_from 5 self url language_name language_header TestLanguage.

(** ** process_url_with_all_languages *)

(** Where a running task is: inside [visit_url], or at the log line after it. *)
Inductive task_pc :=
| InVisit (at_ : pc)
| Completed.       (* 173: logger.info("Completed processing ...") *)

(** A task of the pool, [process_url_with_all_languages(url)] under way:
    [w_langs] are the items of [LANGUAGES.items()] not finished yet, the
    first one being the current one. *)
Record worker := Worker {
  w_url : string;
  w_langs : list (string * string);
  w_at : task_pc
}.

Definition new_task (url : string) : worker :=
  {| w_url := url; w_langs := LANGUAGES; w_at := InVisit TestLanguage |}.

(** One statement of a task. [None]: the task is over, either at the end of
    the [for] loop or by an exception, which stays in the task's future
    because nobody reads the results of [executor.map]. *)
Definition worker_step (self : SitemapCrawler) (w : worker)
    : SitemapCrawler * option worker * list event :=
  match w_langs w with
  | [] => (self, None, [])
  | (language_name, language_header) :: rest =>
      match w_at w with
      | InVisit at_ =>
          match visit_url_step self (w_url w) language_name language_header at_ with
          | (inl e, ev) => (self, None, ev)
          | (inr (self, Some at_), ev) =>
              (self, Some {| w_url := w_url w; w_langs := w_langs w; w_at := InVisit at_ |}, ev)
          | (inr (self, None), ev) =>
              (self, Some {| w_url := w_url w; w_langs := w_langs w; w_at := Completed |}, ev)
          end
      | Completed =>
          (self,
           match rest with
           | [] => None
           | _ => Some {| w_url := w_url w; w_langs := rest; w_at := InVisit TestLanguage |}
           end,
           [Log INFO (CompletedProcessing (w_url w) language_name)])
      end
  end.

(** A task that no other thread interrupts. *)
Fixpoint run_task (steps : nat) (self : SitemapCrawler) (w : worker)
    : SitemapCrawler * list event :=
  match steps with
  | O => (self, [])
  | S steps =>
      match worker_step self w with
      | (self, None, ev) => (self, ev)
      | (self, Some w, ev) =>
          let '(self, evs) := run_task steps self w in (self, ev ++ evs)
      end
  end.

Definition process_url_with_all_languages (self : SitemapCrawler) (url : string)
    : SitemapCrawler * list event :=
  run_task (6 * length LANGUAGES) self (new_task url).

(** ** The thread pool of [crawl] *)

(** [ThreadPoolExecutor(max_workers).map(process_url_with_all_languages, urls)]:
    the work items not taken yet, the tasks under way (at most [max_workers]),
    the one crawler object all of them share, and the events so far. *)
Record pool := Pool {
  pool_self : SitemapCrawler;
  pool_queue : list string;
  pool_workers : list worker;
  pool_log : list event
}.

(** One step of the pool. The scheduler's [choice] picks among the tasks
    under way and, when a thread is free and an item is left, the start of
    the next item. A finished task leaves the pool. *)
Definition pool_step (choice : nat) (p : pool) : pool :=
  let n := length (pool_workers p) in
  let can_start :=
    bool_decide (n < Pos.to_nat (max_workers (pool_self p)))
    && bool_decide (pool_queue p ≠ []) in
  let options := n + (if can_start then 1 else 0) in
  let i := choice `mod` options in
  match pool_workers p !! i with
  | Some w =>
      let '(self, w', ev) := worker_step (pool_self p) w in
      {| pool_self := self;
         pool_queue := pool_queue p;
         pool_workers := take i (pool_workers p) ++ option_list w'
                         ++ drop (S i) (pool_workers p);
         pool_log := pool_log p ++ ev |}
  | None =>
      match pool_queue p with
      | url :: queue =>
          if can_start
          then {| pool_self := pool_self p;
                  pool_queue := queue;
                  pool_workers := pool_workers p ++ [new_task url];
                  pool_log := pool_log p |}
          else p
      | [] => p
      end
  end.

(** The pool under a schedule, one choice per step; a schedule that runs
    out goes on with choice 0. *)
Fixpoint run_pool (steps : nat) (schedule : list nat) (p : pool) : pool :=
  match steps with
  | O => p
  | S steps => run_pool steps (tail schedule) (pool_step (hd 0 schedule) p)
  end.

(** The [with] block ends when every item is done: a start and at most six
    statements per language for each item. *)
Definition executor_map (self : SitemapCrawler) (urls : list string)
    (schedule : list nat) : pool :=
  run_pool (length urls * (2 + 6 * length LANGUAGES)) schedule
    {| pool_self := self; pool_queue := urls; pool_workers := []; pool_log := [] |}.

(** ** crawl *)

(** Lines 190-196. *)
Definition summary (visited_urls : list (string * gset string)) : list event :=
  [Log INFO CrawlCompleted] ++
  map (λ item, Log INFO (LanguageCount item.1 (size item.2))) visited_urls ++
  [Log INFO (TotalProcessed (foldl (λ total_visited item, total_visited + size item.2)
                                   0 visited_urls))].

Definition crawl (self : SitemapCrawler) (fuel : nat) (schedule : list nat)
    : outcome SitemapCrawler * list event :=
  match get_urls_from_sitemap self fuel with
  | (Returned urls, ev) =>
      match urls with
      | [] => (Returned self, ev ++ [Log ERROR NoURLsFound])
      | _ =>
          let total_requests := length urls * length LANGUAGES in
          let p := executor_map self urls schedule in
          (Returned (pool_self p),
           ev ++ [Log INFO (StartingCrawl total_requests (length urls) (length LANGUAGES))]
              ++ pool_log p ++ summary (visited_urls (pool_self p)))
      end
  | (Raised e, ev) => (Raised e, ev)
  | (OutOfFuel, ev) => (OutOfFuel, ev)
  end.

End Crawler.

(** ** A small site to run the definitions on *)

Module Demo.

Definition ok (body : bytes) : exn + response :=
  inr {| status_code := 200; headers := λ _, None; content := body; text := body |}.

Definition urlset (locs : list string) : element :=
  Element "urlset" None
    (map (λ l, Element "url" None [Element "loc" (Some l) []]) locs).

Definition sitemapindex (locs : list string) : element :=
  Element "sitemapindex" None
    (map (λ l, Element "sitemap" None [Element "loc" (Some l) []]) locs).

(** A root index with two leaves of two pages each; [/b.xml] repeats a page
    of [/a.xml]; [/a.xml.gz] and [/a-encoded.xml] serve [/a.xml] compressed;
    [/variants.xml] lists one page twice and two near spellings of it; [/down]
    does not answer; everything else is a 404 page. Bodies are document
    names, and [fromstring] is the table that maps a name to its tree. *)
Definition site : env :=
  {| requests_get := λ url _ _,
       if bool_decide (url = "/sitemap.xml") then ok "root"
       else if bool_decide (url = "/a.xml") then ok "a"
       else if bool_decide (url = "/b.xml") then ok "b"
       else if bool_decide (url = "/variants.xml") then ok "v"
       else if bool_decide (url = "/a.xml.gz") then ok "a.gz"
       else if bool_decide (url = "/a-encoded.xml") then
         inr {| status_code := 200;
                headers := λ h, if bool_decide (h = "Content-Encoding")
                                then Some "gzip" else None;
                content := "a.gz"; text := "a.gz" |}
       else if bool_decide (url = "/down") then inl (LibraryError "ConnectTimeout")
       else if bool_decide (url = "/p1") then ok "<title>One</title>"
       else if bool_decide (url = "/p2") then ok "no title here"
       else inr {| status_code := 404; headers := λ _, None; content := "";
                   text := "" |};
     gunzip := λ z, if bool_decide (z = "a.gz") then inr "a"
                    else inl (LibraryError "BadGzipFile");
     fromstring := λ b,
       if bool_decide (b = "root") then inr (sitemapindex ["/a.xml"; "/b.xml"])
       else if bool_decide (b = "a") then inr (urlset ["/p1"; "/p2"])
       else if bool_decide (b = "b") then inr (urlset ["/p2"; "/p3"])
       else if bool_decide (b = "v") then inr (urlset ["/p"; "/p/"; "/P"; "/p"])
       else inl (LibraryError "ParseError");
     soup_title := λ t,
       if bool_decide (t = "<title>One</title>") then Some (Some "One") else None |}.

Definition crawler : SitemapCrawler := init "/sitemap.xml" 1 30 2.

End Demo.

(** * The vocabulary of the statements *)

(** ** Reading a run's events *)

(** The arguments of the [time.sleep] calls, in order. *)
Definition sleeps (ev : list event) : list duration :=
  omap (λ e, match e with Sleep d => Some d | _ => None end) ev.

(** The locations popped off the queue, in order: each pop is followed by
    its "Processing sitemap" line. *)
Definition dequeued (ev : list event) : list string :=
  omap (λ e, match e with Log INFO (ProcessingSitemap u) => Some u | _ => None end) ev.

(** [headers.get(name)] of a request. *)
Fixpoint header_get (k : string) (hdrs : list (string * string)) : option string :=
  match hdrs with
  | [] => None
  | (k', v) :: hdrs => if bool_decide (k' = k) then Some v else header_get k hdrs
  end.

(** The URLs requested with [Accept-Language: hdr], in order: the network
    calls of [visit_url] under that language. *)
Definition visited_under (hdr : string) (ev : list event) : list string :=
  omap (λ e, match e with
             | Get url hdrs _ =>
                 if bool_decide (header_get "Accept-Language" hdrs = Some hdr)
                 then Some url else None
             | _ => None
             end) ev.

(** The lines of the final summary among the events. *)
Definition summary_lines (ev : list event) : list message :=
  omap (λ e, match e with
             | Log INFO CrawlCompleted => Some CrawlCompleted
             | Log INFO (LanguageCount l n) => Some (LanguageCount l n)
             | Log INFO (TotalProcessed n) => Some (TotalProcessed n)
             | _ => None
             end) ev.

Arguments visit_request : simpl never.
Arguments visited_under : simpl never.

(** ** The hierarchy a site serves *)

Section Hierarchy.
Variable E : env.
Variable self : SitemapCrawler.

(** What the loop makes of a location: [None] when the fetch gives nothing to
    parse, otherwise the pair [parse_sitemap] returns. *)
Definition sitemap_doc (u : string) : option (list string * bool) :=
  let content := (fetch_url E self u).1 in
  if truthy content
  then match (parse_sitemap E content).1 with
       | Pair urls is_index => Some (urls, is_index)
       | EmptyList => None
       end
  else None.

(** The child sitemaps of an index document, and the page URLs of a url-set
    document. A document that fails has neither. *)
Definition child_sitemaps (u : string) : list string :=
  match sitemap_doc u with Some (urls, true) => urls | _ => [] end.

Definition page_urls (u : string) : list string :=
  match sitemap_doc u with Some (urls, false) => urls | _ => [] end.

(** [reach u v]: document [v] lies below [u] (or is [u]) along child entries
    of index documents. *)
Inductive reach : string → string → Prop :=
| reach_here u : reach u u
| reach_child u c v : c ∈ child_sitemaps u → reach c v → reach u v.

(** The hierarchy below [u] nests index documents at most [d] deep. A
    hierarchy with a cycle does so for no [d]. *)
Fixpoint nested_within (d : nat) (u : string) : bool :=
  match d with
  | O => bool_decide (child_sitemaps u = [])
  | S d => forallb (nested_within d) (child_sitemaps u)
  end.





End Hierarchy.

(** ** Failures, and the root of a crawl *)



(** The request [fetch_url] sends for a sitemap location. *)
Definition sitemap_request (E : env) (self : SitemapCrawler) (u : string)
    : exn + response :=
  requests_get E u [("User-Agent", user_agent self); ("Accept", accept_value)]
    (timeout self).

(** The same crawler started on another root location. *)
Definition with_sitemap_url (self : SitemapCrawler) (root : string) : SitemapCrawler :=
  {| sitemap_url := root; delay := delay self; timeout := timeout self;
     max_workers := max_workers self; user_agent := user_agent self;
     visited_urls := visited_urls self; all_urls := all_urls self |}.

(** ** Where a task stands *)

(** Keys are unique and are names of configured languages. *)
Definition dict_ok (d : list (string * gset string)) : Prop :=
  NoDup d.*1 ∧ ∀ k, k ∈ d.*1 → k ∈ LANGUAGES.*1.

Definition phase (a : task_pc) : nat :=
  match a with
  | InVisit TestLanguage => 0
  | InVisit CreateSet => 1
  | InVisit TestVisited => 2
  | InVisit AddVisited => 3
  | InVisit Request => 4
  | Completed => 5
  end.

(** Task [w] has yet to reach phase [k] of its visit under language [name]. *)
Definition before (k : nat) (name : string) (w : worker) : Prop :=
  match w_langs w with
  | [] => False
  | (n, _) :: rest => (n = name ∧ (phase (w_at w) < k)%nat) ∨ name ∈ rest.*1
  end.

Global Instance before_dec k name w : Decision (before k name w).
Proof. unfold before. destruct (w_langs w) as [|[n h] rest]; apply _. Defined.

(** The languages left to a task are a tail of [LANGUAGES]. *)
Definition task_ok (w : worker) : Prop := (w_langs w) `suffix_of` LANGUAGES.

(** A task past line 134 finds its language's key in the dict. *)
Definition key_ok (d : list (string * gset string)) (w : worker) : Prop :=
  match w_langs w with
  | [] => True
  | (n, _) :: _ =>
      w_at w = InVisit TestVisited ∨ w_at w = InVisit AddVisited → n ∈ d.*1
  end.

(** A task at line 134 has found its language missing; with one worker
    nobody creates the key in between. *)
Definition fresh_ok (d : list (string * gset string)) (w : worker) : Prop :=
  match w_langs w with
  | [] => True
  | (n, _) :: _ => w_at w = InVisit CreateSet → n ∉ d.*1
  end.

(** ** The invariants of the pool *)

Section PoolVocabulary.
Variables name hdr : string.
Variable urls : list string.

(** The URL of a task whose request under [name] is still to come. *)
Definition ahead_list (w : worker) : list string :=
  if decide (before 5 name w) then [w_url w] else [].

Definition ahead_opt (w : option worker) : list string :=
  match w with Some w => ahead_list w | None => [] end.

Definition ahead_urls (ws : list worker) : list string := flat_map ahead_list ws.

(** What holds of a pool that started on the distinct [urls] with an empty
    dict, whatever the schedule: no URL is in two tasks; a URL in the set of
    [name] belongs to a task that is past line 140 for [name]; the requests
    made under [name], those still to come and the queue make up [urls]. *)
Record pool_inv (p : pool) : Prop := PoolInv {
  inv_nodup : NoDup (pool_queue p ++ (w_url <$> pool_workers p));
  inv_tasks : Forall (λ w, task_ok w ∧ key_ok (visited_urls (pool_self p)) w)
                     (pool_workers p);
  inv_dict : dict_ok (visited_urls (pool_self p));
  inv_seen : ∀ x s, dict_get name (visited_urls (pool_self p)) = Some s → x ∈ s →
               (x ∉ pool_queue p)
               ∧ ∀ w, w ∈ pool_workers p → w_url w = x → ¬ before 4 name w;
  inv_visits : visited_under hdr (pool_log p) ++ ahead_urls (pool_workers p)
                 ++ pool_queue p ≡ₚ urls;
  inv_key : urls ≠ [] →
            name ∈ (visited_urls (pool_self p)).*1 ∨ pool_queue p ≠ []
            ∨ Exists (before 2 name) (pool_workers p)
}.

Definition before_opt (k : nat) (w : option worker) : Prop :=
  match w with Some w => before k name w | None => False end.

(** What holds besides of a pool of one worker: the set of [name] holds
    exactly the URLs whose task is past line 140 for [name]. *)
Record solo_inv (p : pool) : Prop := SoloInv {
  solo_one : (length (pool_workers p) ≤ 1)%nat;
  solo_max : max_workers (pool_self p) = 1%positive;
  solo_urls : ∀ x, x ∈ pool_queue p ++ (w_url <$> pool_workers p) → x ∈ urls;
  solo_fresh : Forall (fresh_ok (visited_urls (pool_self p))) (pool_workers p);
  solo_marks : ∀ x, x ∈ urls → x ∉ pool_queue p →
                 (∀ w, w ∈ pool_workers p → w_url w = x → ¬ before 4 name w) →
                 ∃ s, dict_get name (visited_urls (pool_self p)) = Some s ∧ x ∈ s;
  solo_sub : ∀ x s, dict_get name (visited_urls (pool_self p)) = Some s → x ∈ s →
               x ∈ urls
}.

End PoolVocabulary.

(** The statements a task, and a pool, have yet to run. *)
Definition task_work (w : worker) : nat :=
  match w_langs w with
  | [] => 1
  | _ :: rest => (6 - phase (w_at w)) + 6 * length rest
  end.

Definition pool_work (p : pool) : nat :=
  length (pool_queue p) * (2 + 6 * length LANGUAGES)
  + sum_list_with task_work (pool_workers p).

(** ** More readings of a run's events *)

(** The URLs of all requests, in order. *)
Definition requested (ev : list event) : list string :=
  omap (λ e, match e with Get url _ _ => Some url | _ => None end) ev.

(** The [Accept-Language] values of the requests, in order. *)
Definition request_languages (ev : list event) : list string :=
  omap (λ e, match e with
             | Get _ hdrs _ => header_get "Accept-Language" hdrs
             | _ => None
             end) ev.


(** ** Cycles, occurrences, the tracker *)


(** [old] occurs in [s]. *)
Definition occurs (old s : string) : Prop := ∃ a b, s = a +:+ old +:+ b.

(** The set the tracker holds for a language; empty when it has no key. *)
Definition tracked (language_name : string) (d : list (string * gset string))
    : gset string :=
  default ∅ (dict_get language_name d).

(** ** Tasks that run without interruption *)

(** [process_url_with_all_languages] read as the [for] loop of lines 170-173
    over the items [langs], no other thread running in between. *)
Fixpoint for_each_language (E : env) (self : SitemapCrawler) (url : string)
    (langs : list (string * string)) : (exn + SitemapCrawler) * list event :=
  match langs with
  | [] => (inr self, [])
  | (language_name, language_header) :: langs =>
      match visit_url E self url language_name language_header with
      | (inl e, ev) => (inl e, ev)
      | (inr self, ev) =>
          let '(r, evs) := for_each_language E self url langs in
          (r, ev ++ [Log INFO (CompletedProcessing url language_name)] ++ evs)
      end
  end.

(** The tasks of [urls] one after the other on one thread. *)
Fixpoint process_in_turn (E : env) (self : SitemapCrawler) (urls : list string)
    : SitemapCrawler * list event :=
  match urls with
  | [] => (self, [])
  | url :: urls =>
      let '(self, ev) := process_url_with_all_languages E self url in
      let '(self, evs) := process_in_turn E self urls in
      (self, ev ++ evs)
  end.

(** What a pool of one thread comes to: the task under way, if any, runs to
    its end, then the items of the queue in turn. *)
Definition solo_outcome (E : env) (p : pool) : SitemapCrawler * list event :=
  let '(self, ev) :=
    match pool_workers p with
    | w :: _ => run_task E (task_work w) (pool_self p) w
    | [] => (pool_self p, [])
    end in
  let '(self, evs) := process_in_turn E self (pool_queue p) in
  (self, pool_log p ++ ev ++ evs).

(** ** More invariants of the pool *)

(** What holds of a pool under every schedule is stated in three parts:
    [I] of the shared object and the log, [W] of every task under way, [Q]
    of every item not taken yet. *)
Definition pool_holds (I : SitemapCrawler → list event → Prop)
    (W : SitemapCrawler → worker → Prop) (Q : string → Prop) (p : pool) : Prop :=
  I (pool_self p) (pool_log p)
  ∧ Forall (W (pool_self p)) (pool_workers p)
  ∧ Forall Q (pool_queue p).

(** How many languages a task has behind it, the current one counting once
    line 134 is passed. *)
Definition languages_passed (w : worker) : nat :=
  length LANGUAGES - length (w_langs w)
  + (if bool_decide (2 ≤ phase (w_at w))%nat then 1 else 0).




(** The set of [name] holds a URL, or a task that has line 140 ahead for
    [name] is under way or still to start. *)
Definition marked_or_ahead (name : string) (p : pool) : Prop :=
  tracked name (visited_urls (pool_self p)) ≠ ∅
  ∨ pool_queue p ≠ []
  ∨ Exists (before 4 name) (pool_workers p).

(** ** More sites *)

Module Cases.

(** The demo site as [requests] hands it over: the body of an answer sent
    with [Content-Encoding: gzip] arrives in [response.content] decoded, so
    [/a-encoded.xml], which the server sends as the compressed [/a.xml],
    comes with the header and the plain body. *)
Definition decoding_site : env :=
  {| requests_get := λ url hdrs timeout,
       if bool_decide (url = "/a-encoded.xml") then
         inr {| status_code := 200;
                headers := λ h, if bool_decide (h = "Content-Encoding")
                                then Some "gzip" else None;
                content := "a"; text := "a" |}
       else requests_get Demo.site url hdrs timeout;
     gunzip := gunzip Demo.site;
     fromstring := fromstring Demo.site;
     soup_title := soup_title Demo.site |}.


End Cases.


(** * The resolver *)

(** ** Reading a run's events *)

Lemma last_two {A} (l : list A) a b : last (l ++ [a; b]) = Some b.
Proof. change [a; b] with ([a] ++ [b]). by rewrite app_assoc, last_snoc. Qed.

Lemma sleeps_app ev1 ev2 : sleeps (ev1 ++ ev2) = sleeps ev1 ++ sleeps ev2.
Proof. apply omap_app. Qed.

Lemma dequeued_app ev1 ev2 : dequeued (ev1 ++ ev2) = dequeued ev1 ++ dequeued ev2.
Proof. apply omap_app. Qed.

(** ** fetch_url and parse_sitemap *)

Section ResolverFacts.
Variable E : env.
Variable self : SitemapCrawler.

Lemma fetch_url_events u :
  sleeps (fetch_url E self u).2 = [] ∧ dequeued (fetch_url E self u).2 = [].
Proof.
  unfold fetch_url.
  destruct (requests_get E u _ _) as [e|r]; [done|].
  destruct (raise_for_status r); [done|].
  destruct (_ || _); [|done].
  by destruct (gunzip E (content r)).
Qed.

Lemma parse_sitemap_truthy content :
  truthy content = true →
  ∃ urls is_index, (parse_sitemap E content).1 = Pair urls is_index.
Proof.
  intros Hc. unfold parse_sitemap. rewrite Hc. simpl.
  destruct (fromstring E _) as [e|root]; [by eexists _, _|].
  case_bool_decide; by eexists _, _.
Qed.


Lemma parse_sitemap_events content :
  sleeps (parse_sitemap E content).2 = [] ∧ dequeued (parse_sitemap E content).2 = [].
Proof.
  unfold parse_sitemap. destruct (negb _); [done|].
  destruct (fromstring E _); [done|]. by case_bool_decide.
Qed.

(** The body of the loop in terms of the document at the front of the queue;
    it never raises. *)
Lemma while_body_doc u q acc :
  (while_body E self u q acc).1
  = inr (q ++ child_sitemaps E self u, acc ++ page_urls E self u).
Proof.
  unfold while_body, child_sitemaps, page_urls, sitemap_doc.
  destruct (fetch_url E self u) as [content ev1]; simpl.
  destruct (truthy content) eqn:Hc; simpl.
  - destruct (parse_sitemap_truthy content Hc) as (urls & is_index & Hp).
    destruct (parse_sitemap E content) as [value ev2]; simpl in *; subst value.
    simpl. destruct is_index; simpl; by rewrite app_nil_r.
  - by rewrite !app_nil_r.
Qed.

Lemma while_body_dequeued u q acc :
  dequeued (while_body E self u q acc).2 = [u].
Proof.
  unfold while_body.
  pose proof (fetch_url_events u) as [_ Hf].
  destruct (fetch_url E self u) as [content ev1]; simpl in *.
  destruct (negb (truthy content)).
  { simpl. by rewrite Hf. }
  pose proof (parse_sitemap_events content) as [_ Hp].
  destruct (parse_sitemap E content) as [value ev2]; simpl in *.
  destruct (unpack2 value) as [e|[urls [|]]]; simpl;
    rewrite ?dequeued_app, ?Hf, ?Hp; done.
Qed.

(** The sleeps of one pass: one, of the configured delay, when the fetch gave
    content; none when it did not ([continue] skips the sleep). *)
Lemma while_body_sleeps u q acc :
  sleeps (while_body E self u q acc).2
  = if truthy (fetch_url E self u).1 then [Secs (delay self)] else [].
Proof.
  unfold while_body.
  pose proof (fetch_url_events u) as [Hf _].
  destruct (fetch_url E self u) as [content ev1]; simpl in *.
  destruct (truthy content) eqn:Hc; simpl.
  - pose proof (parse_sitemap_events content) as [Hp _].
    destruct (parse_sitemap_truthy content Hc) as (urls & is_index & Hv).
    destruct (parse_sitemap E content) as [value ev2]; simpl in *; subst value.
    simpl. destruct is_index; simpl; rewrite ?sleeps_app, ?Hf, ?Hp; done.
  - by rewrite ?sleeps_app, ?Hf.
Qed.

(** ** The loop *)

Lemma while_loop_cons fuel u q acc :
  while_loop E self (S fuel) (u :: q) acc
  = let '(r, evs) := while_loop E self fuel (q ++ child_sitemaps E self u)
                                             (acc ++ page_urls E self u) in
    (r, (while_body E self u q acc).2 ++ evs).
Proof.
  simpl. pose proof (while_body_doc u q acc) as Hb.
  destruct (while_body E self u q acc) as [[e|[q' acc']] ev]; simpl in Hb; [done|].
  by simplify_eq.
Qed.


(** What the loop returns: the accumulator, and the pages of every document
    below a queued location. *)
Lemma while_loop_elements fuel q acc res ev :
  while_loop E self fuel q acc = (Returned res, ev) →
  ∀ p, p ∈ res ↔
       p ∈ acc ∨ ∃ u0 v, u0 ∈ q ∧ reach E self u0 v ∧ p ∈ page_urls E self v.
Proof.
  revert q acc res ev.
  induction fuel as [|fuel IH]; intros [|u q] acc res ev Hrun p;
    try (by simplify_eq/=).
  - simplify_eq/=. split; [by left|]. intros [?|(u0 & v & Hin & _)]; [done|].
    by apply elem_of_nil in Hin.
  - simplify_eq/=. split; [by left|]. intros [?|(u0 & v & Hin & _)]; [done|].
    by apply elem_of_nil in Hin.
  - rewrite while_loop_cons in Hrun.
    destruct (while_loop E self fuel _ _) as [r evs] eqn:Hrec. simplify_eq.
    rewrite (IH _ _ _ _ Hrec p). rewrite elem_of_app. split.
    + intros [[?|Hp]|(u0 & v & Hin & Hreach & Hp)].
      * by left.
      * right. exists u, u. split_and!; [by left|constructor|done].
      * right. apply elem_of_app in Hin as [Hin|Hin].
        -- exists u0, v. split_and!; [by right|done|done].
        -- exists u, v. split_and!; [by left|by econstructor|done].
    + intros [?|(u0 & v & Hin & Hreach & Hp)]; [by left; left|].
      apply elem_of_cons in Hin as [->|Hin].
      * inversion Hreach as [|? c ? Hc Hcv]; subst.
        -- by left; right.
        -- right. exists c, v. split_and!; [|done|done].
           apply elem_of_app. by right.
      * right. exists u0, v. split_and!; [|done|done].
        apply elem_of_app. by left.
Qed.

(** The sleeps of a run are all of the configured delay. *)
Lemma while_loop_sleeps fuel q acc :
  Forall (λ d, d = Secs (delay self)) (sleeps (while_loop E self fuel q acc).2).
Proof.
  revert q acc. induction fuel as [|fuel IH]; intros [|u q] acc;
    try (by constructor).
  rewrite while_loop_cons.
  specialize (IH (q ++ child_sitemaps E self u) (acc ++ page_urls E self u)).
  destruct (while_loop E self fuel _ _) as [r evs]. simpl in *.
  rewrite sleeps_app, while_body_sleeps. apply Forall_app. split; [|done].
  destruct (truthy _); repeat constructor.
Qed.

(** *** Termination on a hierarchy of bounded depth *)





(** *** Breadth order *)

Lemma flat_map_leaves q :
  Forall (λ u, nested_within E self 0 u = true) q →
  flat_map (child_sitemaps E self) q = [].
Proof.
  induction 1 as [|u q Hu _ IH]; [done|]. simpl in *.
  apply bool_decide_eq_true in Hu. by rewrite Hu, IH.
Qed.



End ResolverFacts.

(** ** get_urls_from_sitemap *)

Section GetUrls.
Variable E : env.
Variable self : SitemapCrawler.

Lemma NoDup_list_set l : NoDup (list_set l).
Proof. unfold list_set. apply NoDup_elements. Qed.

Lemma elem_of_list_set p l : p ∈ list_set l ↔ p ∈ l.
Proof. unfold list_set. by rewrite elem_of_elements, elem_of_list_to_set. Qed.

Lemma get_urls_from_sitemap_returned fuel urls ev :
  get_urls_from_sitemap E self fuel = (Returned urls, ev) →
  ∃ all_page_urls ev',
    while_loop E self fuel [sitemap_url self] [] = (Returned all_page_urls, ev')
    ∧ urls = list_set all_page_urls
    ∧ ev = ev' ++ [Log INFO (FoundUniqueUrls (length urls))].
Proof.
  unfold get_urls_from_sitemap.
  destruct (while_loop E self fuel _ _) as [[acc|e|] ev'] eqn:Hloop;
    intros; simplify_eq. by eexists _, _.
Qed.



(** The resolved list holds exactly the page URLs of the documents below
    the root. *)
Lemma get_urls_from_sitemap_elements fuel urls ev :
  get_urls_from_sitemap E self fuel = (Returned urls, ev) →
  ∀ p, p ∈ urls ↔
       ∃ v, reach E self (sitemap_url self) v ∧ p ∈ page_urls E self v.
Proof.
  intros (acc & ev' & Hloop & -> & _)%get_urls_from_sitemap_returned p.
  rewrite elem_of_list_set, (while_loop_elements _ _ _ _ _ _ _ Hloop p).
  split.
  - intros [Hp|(u0 & v & ->%list_elem_of_singleton & Hr & Hp)]; [|by eauto].
    by apply elem_of_nil in Hp.
  - intros (v & Hr & Hp). right. exists (sitemap_url self), v.
    split_and!; [|done|done]. by apply list_elem_of_singleton.
Qed.


Lemma get_urls_from_sitemap_fst fuel :
  (get_urls_from_sitemap E self fuel).1
  = match (while_loop E self fuel [sitemap_url self] []).1 with
    | Returned all_page_urls => Returned (list_set all_page_urls)
    | r => r
    end.
Proof.
  unfold get_urls_from_sitemap.
  by destruct (while_loop E self fuel _ _) as [[acc|e|] ev].
Qed.

Lemma while_loop_with_sitemap_url root fuel q acc :
  while_loop E (with_sitemap_url self root) fuel q acc = while_loop E self fuel q acc.
Proof.
  revert q acc. induction fuel as [|fuel IH]; intros [|u q] acc; try done.
  simpl. change (while_body E (with_sitemap_url self root) u q acc)
    with (while_body E self u q acc).
  destruct (while_body E self u q acc) as [[e|[q' acc']] ev]; [done|].
  by rewrite IH.
Qed.

End GetUrls.

(** Two roots that hold the same document resolve to the same list. *)
Lemma get_urls_from_sitemap_same_doc E self root1 root2 fuel :
  sitemap_doc E self root1 = sitemap_doc E self root2 →
  (get_urls_from_sitemap E (with_sitemap_url self root1) fuel).1
  = (get_urls_from_sitemap E (with_sitemap_url self root2) fuel).1.
Proof.
  intros Hdoc. rewrite !get_urls_from_sitemap_fst, !while_loop_with_sitemap_url.
  simpl. destruct fuel as [|fuel]; [done|].
  rewrite !while_loop_cons. unfold child_sitemaps, page_urls. rewrite Hdoc.
  by destruct (while_loop E self fuel _ _).
Qed.

(** * The visitor and the pool *)

(** ** Reading a run's events *)

Lemma visited_under_app hdr ev1 ev2 :
  visited_under hdr (ev1 ++ ev2) = visited_under hdr ev1 ++ visited_under hdr ev2.
Proof. apply omap_app. Qed.

(** ** The dict *)

Lemma dict_get_set k v d k' :
  dict_get k' (dict_set k v d) = if bool_decide (k = k') then Some v else dict_get k' d.
Proof.
  induction d as [|[k0 v0] d IH]; simpl.
  - by repeat case_bool_decide.
  - repeat (case_bool_decide; simplify_eq/=); try done.
    all: by rewrite IH, ?bool_decide_eq_true_2, ?bool_decide_eq_false_2.
Qed.

Lemma dict_get_keys k d : is_Some (dict_get k d) ↔ k ∈ d.*1.
Proof.
  induction d as [|[k0 v0] d IH]; simpl.
  - split; [by intros [? ?]|by intros ?%elem_of_nil].
  - rewrite elem_of_cons. case_bool_decide as Hk.
    + split; [by left|by eexists].
    + rewrite IH. split; [by right|]. by intros [->|?].
Qed.

Lemma dict_mem_keys k d : dict_mem k d = true ↔ k ∈ d.*1.
Proof. unfold dict_mem. by rewrite bool_decide_eq_true, dict_get_keys. Qed.

Lemma dict_set_keys k v d :
  (dict_set k v d).*1 = if dict_mem k d then d.*1 else d.*1 ++ [k].
Proof.
  induction d as [|[k0 v0] d IH]; [done|].
  assert (Hmem : dict_mem k ((k0, v0) :: d)
                 = if bool_decide (k0 = k) then true else dict_mem k d).
  { unfold dict_mem. simpl. destruct (bool_decide (k0 = k)); [|done].
    by apply bool_decide_eq_true_2. }
  rewrite Hmem. cbn [dict_set]. case_bool_decide as Hk; [by subst|].
  rewrite !fmap_cons, IH. by destruct (dict_mem k d).
Qed.

Lemma dict_ok_set k v d :
  dict_ok d → k ∈ LANGUAGES.*1 → dict_ok (dict_set k v d).
Proof.
  intros [Hnd Hsub] Hk. unfold dict_ok. rewrite dict_set_keys.
  destruct (dict_mem k d) eqn:Hmem; [done|].
  assert (k ∉ d.*1) by (rewrite <-dict_mem_keys; congruence).
  split.
  - apply NoDup_app. split_and!; [done| |apply NoDup_singleton].
    intros x Hx ->%list_elem_of_singleton. done.
  - intros x [?| ->%list_elem_of_singleton]%elem_of_app; eauto.
Qed.

(** ** The languages *)

Lemma LANGUAGES_names_NoDup : NoDup LANGUAGES.*1.
Proof. compute_done. Qed.

Lemma LANGUAGES_headers_NoDup : NoDup LANGUAGES.*2.
Proof. compute_done. Qed.

Lemma NoDup_fst_inj {A B} (l : list (A * B)) (a : A) (b b' : B) :
  NoDup l.*1 → (a, b) ∈ l → (a, b') ∈ l → b = b'.
Proof.
  induction l as [|[a0 b0] l IH]; [by intros _ ?%elem_of_nil|].
  rewrite fmap_cons, NoDup_cons. intros [Hnotin Hnd].
  intros [?|H1]%elem_of_cons [?|H2]%elem_of_cons; simplify_eq; eauto.
  - destruct Hnotin. apply list_elem_of_fmap. eexists (_, _). split; [|done]. done.
  - destruct Hnotin. apply list_elem_of_fmap. eexists (_, _). split; [|done]. done.
Qed.

Lemma NoDup_snd_inj {A B} (l : list (A * B)) (a a' : A) (b : B) :
  NoDup l.*2 → (a, b) ∈ l → (a', b) ∈ l → a = a'.
Proof.
  induction l as [|[a0 b0] l IH]; [by intros _ ?%elem_of_nil|].
  rewrite fmap_cons, NoDup_cons. intros [Hnotin Hnd].
  intros [?|H1]%elem_of_cons [?|H2]%elem_of_cons; simplify_eq; eauto.
  - destruct Hnotin. apply list_elem_of_fmap. eexists (_, _). split; [|done]. done.
  - destruct Hnotin. apply list_elem_of_fmap. eexists (_, _). split; [|done]. done.
Qed.

Lemma NoDup_app_remove {A} (l1 l2 : list A) (x : A) :
  NoDup (l1 ++ x :: l2) → NoDup (l1 ++ l2).
Proof. rewrite <-Permutation_middle. by intros [_ ?]%NoDup_cons. Qed.

(** ** Where a task stands *)

Lemma task_ok_cons u n h rest a :
  task_ok (Worker u ((n, h) :: rest) a) →
  (n, h) ∈ LANGUAGES ∧ (n ∉ rest.*1) ∧ (rest `suffix_of` LANGUAGES).
Proof.
  unfold task_ok. simpl. intros [pre Hpre]. split_and!.
  - rewrite Hpre. apply elem_of_app. right. by left.
  - pose proof LANGUAGES_names_NoDup as Hnd. rewrite Hpre, fmap_app, fmap_cons in Hnd.
    apply NoDup_app in Hnd as (_ & _ & Hnd). by apply NoDup_cons in Hnd as [? _].
  - exists (pre ++ [(n, h)]). by rewrite <-(assoc_L (++)).
Qed.

Lemma language_header name hdr n h :
  (name, hdr) ∈ LANGUAGES → (n, h) ∈ LANGUAGES → h = hdr ↔ n = name.
Proof.
  intros H1 H2. split; intros ->.
  - by eapply NoDup_snd_inj; [apply LANGUAGES_headers_NoDup|..].
  - by eapply NoDup_fst_inj; [apply LANGUAGES_names_NoDup|..].
Qed.

Lemma visit_request_visited E hdr self url n h :
  visited_under hdr (visit_request E self url n h)
  = if bool_decide (h = hdr) then [url] else [].
Proof.
  unfold visit_request, visited_under. simpl.
  assert (bool_decide (Some h = Some hdr) = bool_decide (h = hdr)) as ->.
  { apply bool_decide_ext. naive_solver. }
  destruct (requests_get E url _ _) as [e0|r]; simpl.
  - by case_bool_decide.
  - destruct (bool_decide (status_code r = 200%Z)); simpl; by case_bool_decide.
Qed.

(** ** One statement of one task *)

Lemma dict_set_keys_mono k v d n : n ∈ d.*1 → n ∈ (dict_set k v d).*1.
Proof.
  rewrite dict_set_keys. destruct (dict_mem k d); [done|].
  intros. apply elem_of_app. by left.
Qed.

Lemma dict_set_keys_in k v d : k ∈ (dict_set k v d).*1.
Proof.
  rewrite dict_set_keys. destruct (dict_mem k d) eqn:Hmem.
  - by apply dict_mem_keys.
  - apply elem_of_app. right. by left.
Qed.

Set Warnings "-clear-no-such-hyp".

Section Pool.
Variable E : env.
Variables name hdr : string.
Hypothesis Hlang : (name, hdr) ∈ LANGUAGES.
Variable urls : list string.

Ltac before_tac :=
  intros; simplify_eq/=;
  first [ done | lia | tauto
        | by (intuition (simplify_eq/=; eauto using dict_set_keys_mono, dict_set_keys_in; try lia)) ].

Ltac summary_case :=
  unfold ahead_opt, ahead_list, before, key_ok, task_ok; simpl;
  split_and!; try done; try (solve [repeat case_decide; before_tac]).

Lemma worker_step_summary self w self' w' ev :
  task_ok w → key_ok (visited_urls self) w → dict_ok (visited_urls self) →
  (∀ s, dict_get name (visited_urls self) = Some s → w_url w ∈ s → ¬ before 4 name w) →
  worker_step E self w = (self', w', ev) →
  visited_under hdr ev ++ ahead_opt name w' = ahead_list name w
  ∧ match w' with
    | Some w' =>
        w_url w' = w_url w ∧ task_ok w' ∧ key_ok (visited_urls self') w'
        ∧ (before 4 name w' → before 4 name w)
    | None => True
    end
  ∧ (∀ x s', dict_get name (visited_urls self') = Some s' → x ∈ s' →
       (∃ s, dict_get name (visited_urls self) = Some s ∧ x ∈ s)
       ∨ (x = w_url w ∧ match w' with Some w' => ¬ before 4 name w' | None => True end))
  ∧ (∀ n, n ∈ (visited_urls self).*1 → n ∈ (visited_urls self').*1)
  ∧ dict_ok (visited_urls self')
  ∧ (before 2 name w →
       name ∈ (visited_urls self').*1
       ∨ match w' with Some w' => before 2 name w' | None => False end).
Proof.
  intros Hok Hkey Hdict Hseen Hstep.
  destruct w as [u [|[n h] rest] a].
  { unfold worker_step in Hstep. simpl in Hstep. simplify_eq.
    unfold ahead_list, before. simpl. split_and!; try done. naive_solver. }
  destruct (task_ok_cons _ _ _ _ _ Hok) as (Hin & Hfresh & Hrest).
  pose proof (language_header _ _ _ _ Hlang Hin) as Hh.
  assert (Hn : n ∈ LANGUAGES.*1).
  { apply list_elem_of_fmap. by exists (n, h). }
  unfold worker_step, visit_url_step in Hstep. simpl in Hstep.
  unfold key_ok in Hkey. simpl in Hkey, Hseen.
  destruct a as [[]|].
  - (* line 133 *)
    destruct (dict_mem n (visited_urls self)) eqn:Hmem; simpl in Hstep; simplify_eq.
    + apply dict_mem_keys in Hmem. summary_case.
    + summary_case.
  - (* line 134 *)
    simplify_eq. pose proof (dict_ok_set n ∅ _ Hdict Hn) as Hdict'.
    summary_case.
    intros x s'. rewrite dict_get_set. case_bool_decide; [|by eauto].
    intros [= <-]. set_solver.
  - (* line 136 *)
    destruct (dict_get n (visited_urls self)) as [visited|] eqn:Hget.
    2:{ exfalso. assert (is_Some (dict_get n (visited_urls self))) as [? ?]; [|congruence].
        apply dict_get_keys. auto. }
    destruct (bool_decide (u ∈ visited)) eqn:Hvisited; simpl in Hstep; simplify_eq.
    + apply bool_decide_eq_true in Hvisited.
      assert (n ≠ name) as Hne.
      { intros ->. apply (Hseen _ Hget Hvisited). unfold before. simpl. left. split; [done|lia]. }
      summary_case.
    + summary_case.
  - (* line 140 *)
    destruct (dict_get n (visited_urls self)) as [visited|] eqn:Hget.
    2:{ exfalso. assert (is_Some (dict_get n (visited_urls self))) as [? ?]; [|congruence].
        apply dict_get_keys. auto. }
    simplify_eq. pose proof (dict_ok_set n (visited ∪ {[u]}) _ Hdict Hn) as Hdict'.
    summary_case.
    intros x s'. rewrite dict_get_set. case_bool_decide; [|by eauto].
    subst n. intros [= <-] [Hx| ->%elem_of_singleton]%elem_of_union; [by eauto|].
    right. split; [done|]. intros [[_ ?]|?]; [lia|done].
  - (* lines 142-166 *)
    simplify_eq.
    unfold ahead_opt, ahead_list, before, key_ok, task_ok; simpl.
    rewrite visit_request_visited.
    split_and!; try done; try (solve [repeat case_decide; before_tac]).
  - (* line 173 *)
    simplify_eq. destruct rest as [|[n2 h2] rest2].
    + pose proof (not_elem_of_nil name) as Hnil. summary_case.
    + assert (Hrest' : task_ok (Worker u ((n2, h2) :: rest2) (InVisit TestLanguage))) by done.
      assert (Hcons : name ∈ ((n2, h2) :: rest2).*1 ↔ n2 = name ∨ name ∈ rest2.*1).
      { rewrite fmap_cons, elem_of_cons. naive_solver. }
      summary_case.
Qed.

(** ** The invariant of the pool *)

Lemma key_ok_mono d d' w :
  (∀ n, n ∈ d.*1 → n ∈ d'.*1) → key_ok d w → key_ok d' w.
Proof. unfold key_ok. destruct (w_langs w) as [|[n h] rest]; naive_solver. Qed.

Lemma ahead_urls_app ws1 ws2 : ahead_urls name (ws1 ++ ws2) = ahead_urls name ws1 ++ ahead_urls name ws2.
Proof. apply flat_map_app. Qed.

Lemma pool_inv_worker self queue l1 w l2 log self' w' ev :
  pool_inv name hdr urls (Pool self queue (l1 ++ w :: l2) log) →
  worker_step E self w = (self', w', ev) →
  pool_inv name hdr urls (Pool self' queue (l1 ++ option_list w' ++ l2) (log ++ ev)).
Proof.
  intros [Hnd Htasks Hdict Hseen Hvisits Hkey] Hstep. simpl in *.
  apply Forall_app in Htasks as [Ht1 Htasks].
  apply Forall_cons in Htasks as [[Hok Hkok] Ht2].
  destruct (worker_step_summary self w self' w' ev) as (S1 & S2 & S3 & S4 & S5 & S6);
    [done|done|done| |done|].
  { intros s Hs Hx. eapply Hseen; [done|done| |done].
    apply elem_of_app. right. by left. }
  assert (Hurls : (w_url <$> option_list w') = [] ∨ (w_url <$> option_list w') = [w_url w]).
  { destruct w' as [w'|]; [right|by left]. simpl. destruct S2 as [Hu _]. by rewrite Hu. }
  split; simpl.
  - rewrite !fmap_app in *. rewrite fmap_cons in Hnd.
    destruct Hurls as [-> | ->]; [|done].
    simpl. rewrite (assoc_L (++)) in Hnd |- *. by eapply NoDup_app_remove.
  - apply Forall_app. split.
    { eapply Forall_impl; [exact Ht1|]. intros w0 [? ?]. split; [done|].
      by eapply key_ok_mono. }
    apply Forall_app. split.
    { destruct w' as [w'|]; [|done]. simpl. repeat constructor; naive_solver. }
    eapply Forall_impl; [exact Ht2|]. intros w0 [? ?]. split; [done|].
    by eapply key_ok_mono.
  - done.
  - intros x s' Hs' Hx.
    assert (Hw_in : w ∈ l1 ++ w :: l2) by (apply elem_of_app; right; by left).
    destruct (S3 x s' Hs' Hx) as [(s & Hs & Hxs)|[-> Hnow]].
    + destruct (Hseen x s Hs Hxs) as [Hq Hws]. split; [done|].
      intros w0 [Hw0|[Hw0|Hw0]%elem_of_app]%elem_of_app Hurl.
      * apply Hws; [|done]. apply elem_of_app. by left.
      * destruct w' as [w'|]; [|by apply elem_of_nil in Hw0].
        apply list_elem_of_singleton in Hw0 as ->.
        destruct S2 as (Hu & _ & _ & Hmono). intros Hb.
        apply (Hws w Hw_in); [congruence|auto].
      * apply Hws; [|done]. apply elem_of_app. right. by right.
    + rewrite fmap_app, fmap_cons in Hnd.
      apply NoDup_app in Hnd as (Hq & Hdisj & Hnd).
      split.
      { intros Hin. apply (Hdisj _ Hin). apply elem_of_app. right. by left. }
      apply NoDup_app in Hnd as (_ & Hdisj1 & Hnd2).
      apply NoDup_cons in Hnd2 as [Hnot2 _].
      intros w0 [Hw0|[Hw0|Hw0]%elem_of_app]%elem_of_app Hurl.
      * exfalso. eapply Hdisj1; [by apply list_elem_of_fmap_2|].
        rewrite Hurl. by left.
      * destruct w' as [w'|]; [|by apply elem_of_nil in Hw0].
        by apply list_elem_of_singleton in Hw0 as ->.
      * exfalso. apply Hnot2. rewrite <-Hurl. by apply list_elem_of_fmap_2.
  - rewrite visited_under_app. rewrite !ahead_urls_app in *.
    assert (ahead_urls name (option_list w') = ahead_opt name w') as ->.
    { destruct w' as [w'|]; [|done]. unfold ahead_urls. simpl. apply app_nil_r. }
    assert (ahead_urls name (w :: l2) = ahead_list name w ++ ahead_urls name l2) as Hcons by done.
    rewrite Hcons, <-S1 in Hvisits. rewrite <-Hvisits.
    rewrite <-!(assoc_L (++)). f_equiv.
    rewrite !(assoc_L (++)). do 2 f_equiv.
    rewrite <-!(assoc_L (++)). apply Permutation_app_swap_app.
  - intros Hne. destruct (Hkey Hne) as [Hk|[Hq|Hex]]; [left; auto|by right; left|].
    apply Exists_app in Hex as [Hex|Hex].
    { right; right. apply Exists_app. by left. }
    apply Exists_cons in Hex as [Hex|Hex].
    + destruct (S6 Hex) as [?|Hw']; [by left|]. right; right.
      destruct w' as [w'|]; [|done].
      apply Exists_app. right. apply Exists_app. left. by constructor.
    + right; right. apply Exists_app. right. apply Exists_app. by right.
Qed.

Lemma before_new_task k u : (0 < k)%nat → before k name (new_task u).
Proof.
  intros Hk. unfold before, new_task. simpl.
  apply (list_elem_of_fmap_2 fst) in Hlang. simpl in Hlang.
  apply elem_of_cons in Hlang as [->|Hin]; [left; split; [done|lia]|by right].
Qed.

Lemma pool_inv_start self u queue ws log :
  pool_inv name hdr urls (Pool self (u :: queue) ws log) →
  pool_inv name hdr urls (Pool self queue (ws ++ [new_task u]) log).
Proof.
  intros [Hnd Htasks Hdict Hseen Hvisits Hkey]. simpl in *. split; simpl.
  - rewrite fmap_app, (assoc_L (++)). simpl.
    by rewrite <-Permutation_cons_append.
  - apply Forall_app. split; [done|]. repeat constructor.
    + by exists [].
    + unfold key_ok. simpl. by intros [?|?].
  - done.
  - intros x s Hs Hx. destruct (Hseen x s Hs Hx) as [Hq Hws].
    apply not_elem_of_cons in Hq as [Hne Hq]. split; [done|].
    intros w [Hw| ->%list_elem_of_singleton]%elem_of_app Hurl; [by apply Hws|].
    by destruct Hne.
  - assert (ahead_urls name [new_task u] = [u]) as Hnew.
    { unfold ahead_urls, ahead_list. simpl.
      by rewrite decide_True by (apply before_new_task; lia). }
    by rewrite ahead_urls_app, Hnew, <-Hvisits, <-(assoc_L (++)).
  - intros _. right; right. apply Exists_app. right. constructor.
    apply before_new_task. lia.
Qed.

Lemma pool_step_inv choice p : pool_inv name hdr urls p → pool_inv name hdr urls (pool_step E choice p).
Proof.
  intros Hinv. unfold pool_step. destruct p as [self queue ws log]. simpl.
  set (can_start := bool_decide _ && bool_decide _).
  set (i := choice `mod` _).
  destruct (ws !! i) as [w|] eqn:Hw.
  - destruct (worker_step E self w) as [[self' w'] ev] eqn:Hstep.
    rewrite <-(take_drop_middle ws i w Hw) in Hinv.
    by eapply pool_inv_worker.
  - destruct queue as [|u queue]; [done|]. destruct can_start; [|done].
    by apply pool_inv_start.
Qed.

Lemma run_pool_inv steps schedule p :
  pool_inv name hdr urls p → pool_inv name hdr urls (run_pool E steps schedule p).
Proof.
  revert schedule p. induction steps as [|steps IH]; intros schedule p Hinv; [done|].
  simpl. by apply IH, pool_step_inv.
Qed.

Lemma pool_inv_init self :
  NoDup urls → visited_urls self = [] → pool_inv name hdr urls (Pool self urls [] []).
Proof.
  intros Hnd Hfresh. split; simpl; rewrite ?Hfresh.
  - by rewrite app_nil_r.
  - done.
  - split; [constructor|]. by intros k ?%elem_of_nil.
  - done.
  - done.
  - intros Hne. by right; left.
Qed.

End Pool.

(** ** The pool drains *)

Lemma task_work_pos w : (1 ≤ task_work w)%nat.
Proof.
  unfold task_work. destruct (w_langs w); [done|].
  destruct (w_at w) as [[]|]; simpl; lia.
Qed.

Lemma worker_step_work E self w :
  (sum_list_with task_work (option_list (worker_step E self w).1.2) < task_work w)%nat.
Proof.
  destruct w as [u [|[n h] rest] a]; [cbv; lia|].
  unfold worker_step, visit_url_step. simpl.
  destruct a as [[]|]; simpl.
  - destruct (dict_mem n (visited_urls self)); simpl; unfold task_work; simpl; lia.
  - unfold task_work; simpl; lia.
  - destruct (dict_get n (visited_urls self)); [|simpl; unfold task_work; simpl; lia].
    destruct (bool_decide _); simpl; unfold task_work; simpl; lia.
  - destruct (dict_get n (visited_urls self)); simpl; unfold task_work; simpl; lia.
  - unfold task_work; simpl; lia.
  - destruct rest as [|[n2 h2] rest2]; simpl; unfold task_work; simpl; lia.
Qed.

Lemma pool_step_work E choice p :
  (pool_work (pool_step E choice p) ≤ pred (pool_work p))%nat.
Proof.
  unfold pool_step. destruct p as [self queue ws log]. simpl.
  set (can_start := bool_decide _ && bool_decide _).
  set (options := (length ws + _)%nat).
  destruct (ws !! (choice `mod` options)) as [w|] eqn:Hw.
  - pose proof (worker_step_work E self w) as Hless.
    destruct (worker_step E self w) as [[self' w'] ev]. simpl in Hless.
    unfold pool_work. simpl.
    rewrite <-(take_drop_middle ws _ w Hw) at 3.
    rewrite !sum_list_with_app. simpl. lia.
  - apply lookup_ge_None in Hw.
    assert (Hfull : can_start = false → ws = []).
    { intros Hc. destruct ws as [|w0 ws]; [done|]. exfalso.
      subst options. rewrite Hc, Nat.add_0_r in Hw.
      pose proof (Nat.mod_upper_bound choice (length (w0 :: ws))). simpl in *. lia. }
    destruct queue as [|u queue].
    + rewrite Hfull; [done|]. unfold can_start. by rewrite andb_false_r.
    + destruct can_start eqn:Hc.
      * unfold pool_work. simpl. rewrite sum_list_with_app. simpl. lia.
      * exfalso. unfold can_start in Hc. rewrite (Hfull eq_refl) in Hc.
        simpl in Hc. by rewrite bool_decide_eq_true_2 in Hc by lia.
Qed.

Lemma run_pool_drains E steps schedule p :
  (pool_work p ≤ steps)%nat →
  pool_queue (run_pool E steps schedule p) = []
  ∧ pool_workers (run_pool E steps schedule p) = [].
Proof.
  revert schedule p. induction steps as [|steps IH]; intros schedule p Hwork.
  - simpl. unfold pool_work in Hwork.
    destruct p as [self [|u queue] [|w ws] log]; simpl in *; try done; try lia.
    pose proof (task_work_pos w). lia.
  - simpl. apply IH. pose proof (pool_step_work E (hd 0 schedule) p). lia.
Qed.

(** ** What [executor.map] does *)

(** Started on distinct URLs and an empty dict, under any schedule, the
    pool requests every URL exactly once with the header of each language,
    and leaves one key per language in the dict. *)
Lemma executor_map_visits E self urls schedule name hdr :
  (name, hdr) ∈ LANGUAGES → NoDup urls → visited_urls self = [] →
  visited_under hdr (pool_log (executor_map E self urls schedule)) ≡ₚ urls
  ∧ (urls ≠ [] → name ∈ (visited_urls (pool_self (executor_map E self urls schedule))).*1)
  ∧ dict_ok (visited_urls (pool_self (executor_map E self urls schedule))).
Proof.
  intros Hlang Hnd Hfresh. unfold executor_map.
  set (p0 := Pool self urls [] []).
  set (steps := (length urls * _)%nat).
  destruct (run_pool_drains E steps schedule p0) as [Hq Hws].
  { unfold pool_work, p0, steps. simpl. lia. }
  destruct (run_pool_inv E name hdr Hlang urls steps schedule p0)
    as [_ _ Hdict _ Hvisits Hkey].
  { by apply pool_inv_init. }
  rewrite Hq, Hws in *. simpl in Hvisits. rewrite app_nil_r in Hvisits.
  split_and!; [done| |done].
  intros Hne. destruct (Hkey Hne) as [?|[?|Hex]]; [done|done|].
  by apply Exists_nil in Hex.
Qed.

(** ** One worker *)

Section Solo.
Variable E : env.
Variables name hdr : string.
Hypothesis Hlang : (name, hdr) ∈ LANGUAGES.
Variable urls : list string.

Ltac solo_tac :=
  intros; simplify_eq/=;
  first [ done | lia | tauto
        | by (intuition (simplify_eq/=; eauto using dict_set_keys_mono, dict_set_keys_in; try lia)) ].

Ltac solo_case :=
  unfold before_opt, before, key_ok, fresh_ok; simpl;
  split_and!; try done; try (solve [solo_tac]).

Lemma worker_step_solo self w self' w' ev :
  task_ok w → key_ok (visited_urls self) w → fresh_ok (visited_urls self) w →
  worker_step E self w = (self', w', ev) →
  max_workers self' = max_workers self
  ∧ match w' with Some w' => fresh_ok (visited_urls self') w' | None => True end
  ∧ (∀ x s, dict_get name (visited_urls self) = Some s → x ∈ s →
       ∃ s', dict_get name (visited_urls self') = Some s' ∧ x ∈ s')
  ∧ (before 4 name w → ¬ before_opt name 4 w' →
       ∃ s', dict_get name (visited_urls self') = Some s' ∧ w_url w ∈ s').
Proof.
  intros Hok Hkey Hfresh Hstep.
  destruct w as [u [|[n h] rest] a].
  { unfold worker_step in Hstep. simpl in Hstep. simplify_eq.
    unfold before. simpl. split_and!; try done; eauto. }
  destruct (task_ok_cons _ _ _ _ _ Hok) as (Hin & Hnotin & Hrest).
  unfold worker_step, visit_url_step in Hstep. simpl in Hstep.
  unfold key_ok in Hkey. unfold fresh_ok in Hfresh. simpl in Hkey, Hfresh.
  destruct a as [[]|].
  - destruct (dict_mem n (visited_urls self)) eqn:Hmem; simpl in Hstep; simplify_eq.
    + solo_case; eauto.
    + assert (n ∉ (visited_urls self').*1).
      { rewrite <-dict_mem_keys. congruence. }
      solo_case; eauto.
  - simplify_eq. solo_case.
    intros x s Hs Hx. rewrite dict_get_set. case_bool_decide; [|by eauto].
    subst n. exfalso. apply Hfresh; [done|]. apply dict_get_keys. by eexists.
  - destruct (dict_get n (visited_urls self)) as [visited|] eqn:Hget.
    2:{ exfalso. assert (is_Some (dict_get n (visited_urls self))) as [? ?]; [|congruence].
        apply dict_get_keys. auto. }
    destruct (bool_decide (u ∈ visited)) eqn:Hvisited; simpl in Hstep; simplify_eq.
    + apply bool_decide_eq_true in Hvisited. solo_case; eauto.
    + solo_case; eauto.
  - destruct (dict_get n (visited_urls self)) as [visited|] eqn:Hget.
    2:{ exfalso. assert (is_Some (dict_get n (visited_urls self))) as [? ?]; [|congruence].
        apply dict_get_keys. auto. }
    simplify_eq. solo_case.
    + intros x s Hs Hx. rewrite dict_get_set. case_bool_decide; [|by eauto].
      subst n. simplify_eq. eexists. split; [done|]. set_solver.
    + intros [[-> _]|?] Hnot; [|tauto].
      rewrite dict_get_set, bool_decide_eq_true_2 by done.
      eexists. split; [done|]. set_solver.
  - simplify_eq. solo_case; eauto.
  - simplify_eq. destruct rest as [|[n2 h2] rest2].
    + pose proof (not_elem_of_nil name) as Hnil. solo_case; eauto.
    + assert (Hcons : name ∈ ((n2, h2) :: rest2).*1 ↔ n2 = name ∨ name ∈ rest2.*1).
      { rewrite fmap_cons, elem_of_cons. naive_solver. }
      solo_case; eauto.
Qed.

Lemma solo_inv_worker self queue w log self' w' ev :
  pool_inv name hdr urls (Pool self queue [w] log) →
  solo_inv name urls (Pool self queue [w] log) →
  worker_step E self w = (self', w', ev) →
  solo_inv name urls (Pool self' queue (option_list w') (log ++ ev)).
Proof.
  intros [Hnd Htasks Hdict Hseen _ _] [_ Hmax Hurls Hfresh Hmarks Hsub] Hstep.
  simpl in *.
  apply Forall_singleton in Htasks as [Hok Hkok].
  rewrite Forall_singleton in Hfresh.
  destruct (worker_step_summary E name hdr Hlang self w self' w' ev)
    as (_ & S2 & S3 & _); [done|done|done| |done|].
  { intros s Hs Hx. eapply Hseen; [done|done| |done]. by left. }
  destruct (worker_step_solo self w self' w' ev)
    as (T1 & T2 & T3 & T4); [done..|].
  split; simpl.
  - destruct w'; simpl; lia.
  - congruence.
  - intros x [Hx|Hx]%elem_of_app; apply Hurls; apply elem_of_app; [by left|right].
    destruct w' as [w'|]; [|by apply elem_of_nil in Hx].
    simpl in Hx. apply list_elem_of_singleton in Hx as ->.
    destruct S2 as [-> _]. by left.
  - destruct w' as [w'|]; [|done]. by apply Forall_singleton.
  - intros x Hx Hq Hws.
    destruct (decide (x = w_url w)) as [->|Hne].
    + destruct (decide (before 4 name w)) as [Hb|Hb].
      * apply T4; [done|]. destruct w' as [w'|]; [|simpl; tauto]. simpl.
        apply Hws; [by left|]. by destruct S2 as [-> _].
      * destruct (Hmarks (w_url w) Hx Hq) as (s & Hs & Hxs); [|by eauto].
        by intros w0 ->%list_elem_of_singleton _.
    + destruct (Hmarks x Hx Hq) as (s & Hs & Hxs); [|by eauto].
      by intros w0 ->%list_elem_of_singleton ?.
  - intros x s' Hs' Hxs'. destruct (S3 x s' Hs' Hxs') as [(s & Hs & Hxs)|[-> _]].
    + by eapply Hsub.
    + apply Hurls. apply elem_of_app. right. by left.
Qed.

Lemma solo_inv_start self u queue log :
  solo_inv name urls (Pool self (u :: queue) [] log) →
  solo_inv name urls (Pool self queue [new_task u] log).
Proof.
  intros [_ Hmax Hurls Hfresh Hmarks Hsub]. simpl in *. split; simpl.
  - done.
  - done.
  - intros x Hx. apply Hurls. rewrite app_nil_r.
    apply elem_of_app in Hx as [Hx| ->%list_elem_of_singleton]; [by right|by left].
  - by repeat constructor.
  - intros x Hx Hq Hws.
    destruct (decide (x = u)) as [->|Hne].
    + exfalso. apply (Hws (new_task u)); [by left|done|].
      apply (before_new_task name hdr Hlang). lia.
    + apply Hmarks; [done| |by intros w ?%elem_of_nil].
      by intros [?|?]%elem_of_cons.
  - done.
Qed.

Lemma solo_step_inv choice p :
  pool_inv name hdr urls p → solo_inv name urls p → solo_inv name urls (pool_step E choice p).
Proof.
  intros Hinv Hsolo. unfold pool_step.
  destruct p as [self queue ws log]. simpl.
  pose proof (solo_one _ _ _ Hsolo) as Hone. pose proof (solo_max _ _ _ Hsolo) as Hmax.
  simpl in Hone, Hmax. rewrite Hmax.
  destruct ws as [|w [|w2 ws]]; [| |simpl in Hone; lia].
  - rewrite lookup_nil. destruct queue as [|u queue]; [done|].
    rewrite bool_decide_eq_true_2 by (simpl; lia).
    rewrite bool_decide_eq_true_2 by done. simpl. by apply solo_inv_start.
  - simpl (length [w]).
    rewrite bool_decide_eq_false_2 by (simpl; lia). simpl.
    destruct (worker_step E self w) as [[self' w'] ev] eqn:Hstep.
    rewrite app_nil_r. by eapply solo_inv_worker.
Qed.

Lemma solo_run_inv steps schedule p :
  pool_inv name hdr urls p → solo_inv name urls p → solo_inv name urls (run_pool E steps schedule p).
Proof.
  revert schedule p. induction steps as [|steps IH]; intros schedule p Hinv Hsolo;
    [done|].
  simpl. apply IH; [by apply pool_step_inv|by apply solo_step_inv].
Qed.

End Solo.

(** With one worker the count of each language is the number of URLs
    requested under it, failed visits included: the tracker ends up holding
    every resolved URL. *)
Lemma one_worker_counts_every_visit E self urls schedule name hdr :
  (name, hdr) ∈ LANGUAGES → NoDup urls → urls ≠ [] →
  visited_urls self = [] → max_workers self = 1%positive →
  let p := executor_map E self urls schedule in
  ∃ visited,
    dict_get name (visited_urls (pool_self p)) = Some visited
    ∧ visited = list_to_set urls
    ∧ size visited = length (visited_under hdr (pool_log p)).
Proof.
  intros Hlang Hnd Hne Hfresh Hmax. simpl. unfold executor_map.
  set (p0 := Pool self urls [] []).
  set (steps := (length urls * _)%nat).
  destruct (run_pool_drains E steps schedule p0) as [Hq Hws].
  { unfold pool_work, p0, steps. simpl. lia. }
  pose proof (pool_inv_init name hdr urls self Hnd Hfresh) as Hinv0.
  pose proof (run_pool_inv E name hdr Hlang urls steps schedule p0 Hinv0)
    as [_ _ _ _ Hvisits _].
  destruct (solo_run_inv E name hdr Hlang urls steps schedule p0 Hinv0)
    as [_ _ _ _ Hmarks Hsub].
  { split; simpl; rewrite ?Hfresh, ?app_nil_r; try done; lia. }
  rewrite Hq, Hws in *. simpl in Hvisits. rewrite app_nil_r in Hvisits.
  destruct urls as [|u0 urls']; [done|].
  destruct (Hmarks u0) as (visited & Hget & _);
    [by left|by intros ?%elem_of_nil|by intros ? ?%elem_of_nil|].
  exists visited. split; [done|].
  assert (visited = list_to_set (u0 :: urls')) as ->.
  { apply set_eq. intros x. rewrite elem_of_list_to_set. split.
    - by apply Hsub.
    - intros Hx. destruct (Hmarks x) as (s & Hs & Hxs);
        [done|by intros ?%elem_of_nil|by intros ? ?%elem_of_nil|].
      by simplify_eq. }
  split; [done|].
  rewrite Hvisits. by apply size_list_to_set.
Qed.

(** * The definitions at work *)

Example resolve_demo_site :
  (get_urls_from_sitemap Demo.site Demo.crawler 3).1 = Returned ["/p3"; "/p1"; "/p2"].
Proof. vm_compute. reflexivity. Qed.

(** Spellings that differ in case or in a trailing slash stay apart. *)
Example resolve_keeps_spellings_apart :
  (get_urls_from_sitemap Demo.site (with_sitemap_url Demo.crawler "/variants.xml") 1).1
  = Returned ["/p/"; "/p"; "/P"].
Proof. vm_compute. reflexivity. Qed.

Example fetch_content_encoding_gzip :
  (fetch_url Demo.site Demo.crawler "/a-encoded.xml").1 = Some "a"
  ∧ sitemap_doc Demo.site Demo.crawler "/a-encoded.xml"
    = sitemap_doc Demo.site Demo.crawler "/a.xml".
Proof. vm_compute. done. Qed.

Example endswith_gz :
  endswith "/a.xml.gz" ".gz" = true ∧ endswith "/a.xml" ".gz" = false
  ∧ endswith "gz" ".gz" = false.
Proof. vm_compute. done. Qed.

Example strip_namespace :
  remove_all sitemap_xmlns
    (String.append "<urlset " (String.append sitemap_xmlns "><url/></urlset>"))
  = "<urlset ><url/></urlset>".
Proof. vm_compute. reflexivity. Qed.

Example visit_page_without_title :
  omap (λ e, match e with Log lv m => Some (lv, m) | _ => None end)
       (visit_request Demo.site Demo.crawler "/p2" "French" "fr,fr-FR;q=0.9")
  = [(INFO, Visiting "/p2" "French"); (INFO, SuccessfullyVisited "/p2" "French");
     (INFO, PageTitle "French" (Some "No title"))].
Proof. vm_compute. reflexivity. Qed.

Example visit_missing_page :
  omap (λ e, match e with Log lv m => Some (lv, m) | _ => None end)
       (visit_request Demo.site Demo.crawler "/p3" "French" "fr,fr-FR;q=0.9")
  = [(INFO, Visiting "/p3" "French"); (WARNING, FailedToVisit "/p3" "French" 404)].
Proof. vm_compute. reflexivity. Qed.

Example visit_unreachable_page :
  omap (λ e, match e with Log lv m => Some (lv, m) | _ => None end)
       (visit_request Demo.site Demo.crawler "/down" "French" "fr,fr-FR;q=0.9")
  = [(INFO, Visiting "/down" "French");
     (ERROR, ErrorVisiting "/down" "French" (LibraryError "ConnectTimeout"))].
Proof. vm_compute. reflexivity. Qed.

(** * Properties of the resolver *)

(** C2. Whatever the sitemap documents repeat, the list [get_urls_from_sitemap]
    returns has no duplicate string, and a string is in it exactly when some
    document below the root lists that very string as a page URL. *)
Theorem resolver_returns_distinct_urls E self fuel urls ev :
  get_urls_from_sitemap E self fuel = (Returned urls, ev) →
  NoDup urls
  ∧ ∀ p, p ∈ urls ↔ ∃ v, reach E self (sitemap_url self) v ∧ p ∈ page_urls E self v.
Proof.
  intros Hrun. split; [|exact (get_urls_from_sitemap_elements _ _ _ _ _ Hrun)].
  apply get_urls_from_sitemap_returned in Hrun as (acc & _ & _ & -> & _).
  apply NoDup_list_set.
Qed.

Lemma resolver_returns_distinct_urls_witness :
  ∃ urls ev,
    get_urls_from_sitemap Demo.site Demo.crawler 10 = (Returned urls, ev)
    ∧ length urls = 3
    ∧ NoDup urls
    ∧ ∀ p, p ∈ urls ↔ ∃ v, reach Demo.site Demo.crawler "/sitemap.xml" v
                           ∧ p ∈ page_urls Demo.site Demo.crawler v.
Proof.
  eexists _, _. split; [vm_compute; reflexivity|]. split; [reflexivity|].
  eapply (resolver_returns_distinct_urls Demo.site Demo.crawler 10).
  vm_compute; reflexivity.
Defined.





(** C7, as the claim states it, fails: the pass over a location whose fetch
    fails pops the location and does not sleep. *)
Lemma failed_fetch_skips_the_sleep :
  let ev := (while_body Demo.site Demo.crawler "/down" [] []).2 in
  dequeued ev = ["/down"] ∧ sleeps ev = []
  ∧ sleeps (get_urls_from_sitemap Demo.site (with_sitemap_url Demo.crawler "/down") 5).2 = [].
Proof. vm_compute. done. Qed.

(** C7, amended. A pass sleeps once, for exactly the configured delay and as
    its last action, when the fetch gave content to parse - an index, a url
    set and a malformed document alike; a pass whose fetch failed or gave an
    empty body does not sleep. Every sleep of a resolver run is of the
    configured delay. *)
Theorem resolver_sleeps_after_fetched_documents E self fuel u queue all_page_urls :
  let ev := (while_body E self u queue all_page_urls).2 in
  match sitemap_doc E self u with
  | Some (urls, is_index) =>
      sleeps ev = [Secs (delay self)] ∧ last ev = Some (Sleep (Secs (delay self)))
  | None => sleeps ev = []
  end
  ∧ Forall (λ d, d = Secs (delay self)) (sleeps (get_urls_from_sitemap E self fuel).2).
Proof.
  simpl. split.
  - pose proof (while_body_sleeps E self u queue all_page_urls) as Hs.
    unfold sitemap_doc, while_body in *.
    destruct (fetch_url E self u) as [content ev1]; simpl in *.
    destruct (truthy content) eqn:Hc; simpl in *; [|done].
    destruct (parse_sitemap_truthy E content Hc) as (urls & is_index & Hv).
    destruct (parse_sitemap E content) as [value ev2]; simpl in *; subst value.
    simpl in *. split; [by destruct is_index|].
    destruct is_index; simpl; by rewrite app_comm_cons, !app_assoc, last_two.
  - unfold get_urls_from_sitemap.
    pose proof (while_loop_sleeps E self fuel [sitemap_url self] []) as Hs.
    destruct (while_loop E self fuel _ _) as [[acc|e|] ev]; simpl in *; try done.
    rewrite sleeps_app. simpl. by rewrite app_nil_r.
Qed.

(** Where the body handed over is the compressed one - at a location ending
    in [.gz], or under the header [Content-Encoding: gzip] a body compressed
    twice - the fetch gives what [gunzip] makes of it. So if the body
    decompresses to the body another location serves plain, both fetches give
    the same bytes, both parse to the same document, and a crawl rooted at
    either resolves to the same list. *)
Theorem gzip_body_resolves_like_plain E self gz_url gz_resp :
  sitemap_request E self gz_url = inr gz_resp →
  raise_for_status gz_resp = None →
  headers gz_resp "Content-Encoding" = Some "gzip" ∨ endswith gz_url ".gz" = true →
  (fetch_url E self gz_url).1
  = match gunzip E (content gz_resp) with inr body => Some body | inl _ => None end
  ∧ ∀ plain_url plain_resp fuel,
      sitemap_request E self plain_url = inr plain_resp →
      raise_for_status plain_resp = None →
      headers plain_resp "Content-Encoding" ≠ Some "gzip" →
      endswith plain_url ".gz" = false →
      gunzip E (content gz_resp) = inr (content plain_resp) →
      (fetch_url E self gz_url).1 = Some (content plain_resp)
      ∧ (fetch_url E self plain_url).1 = Some (content plain_resp)
      ∧ sitemap_doc E self gz_url = sitemap_doc E self plain_url
      ∧ (get_urls_from_sitemap E (with_sitemap_url self gz_url) fuel).1
        = (get_urls_from_sitemap E (with_sitemap_url self plain_url) fuel).1.
Proof.
  unfold sitemap_request. intros Hgz Hok Hflag.
  assert (Hfgz : (fetch_url E self gz_url).1
                 = match gunzip E (content gz_resp) with
                   | inr body => Some body
                   | inl _ => None
                   end).
  { unfold fetch_url. rewrite Hgz, Hok.
    assert (bool_decide (headers gz_resp "Content-Encoding" = Some "gzip")
            || endswith gz_url ".gz" = true) as ->.
    { destruct Hflag as [->| ->]; [by rewrite bool_decide_eq_true_2|].
      by rewrite orb_true_r. }
    by destruct (gunzip E (content gz_resp)). }
  split; [done|].
  intros plain_url plain_resp fuel Hplain Hok' Hhdr Hsuffix Hunzip.
  rewrite Hunzip in Hfgz.
  assert (Hfplain : (fetch_url E self plain_url).1 = Some (content plain_resp)).
  { unfold fetch_url. rewrite Hplain, Hok', Hsuffix.
    by rewrite bool_decide_eq_false_2. }
  assert (Hdoc : sitemap_doc E self gz_url = sitemap_doc E self plain_url).
  { unfold sitemap_doc. by rewrite Hfgz, Hfplain. }
  split_and!; [done..|]. by apply get_urls_from_sitemap_same_doc.
Qed.

Lemma gzip_body_resolves_like_plain_witness :
  (fetch_url Demo.site Demo.crawler "/a.xml.gz").1 = Some "a"
  ∧ (fetch_url Demo.site Demo.crawler "/a.xml").1 = Some "a"
  ∧ sitemap_doc Demo.site Demo.crawler "/a.xml.gz"
    = sitemap_doc Demo.site Demo.crawler "/a.xml"
  ∧ (get_urls_from_sitemap Demo.site (with_sitemap_url Demo.crawler "/a.xml.gz") 4).1
    = (get_urls_from_sitemap Demo.site (with_sitemap_url Demo.crawler "/a.xml") 4).1.
Proof.
  refine (proj2 (gzip_body_resolves_like_plain Demo.site Demo.crawler "/a.xml.gz"
            {| status_code := 200; headers := λ _, None; content := "a.gz"; text := "a.gz" |}
            _ _ _) "/a.xml"
            {| status_code := 200; headers := λ _, None; content := "a"; text := "a" |}
            4 _ _ _ _ _).
  - reflexivity.
  - reflexivity.
  - right. reflexivity.
  - reflexivity.
  - reflexivity.
  - simpl. discriminate.
  - reflexivity.
  - reflexivity.
Defined.

(** C8. For a location that does not end in [.gz] and is served with
    [Content-Encoding: gzip], the claim fails on the code: [requests] hands
    the body over decoded, line 57 sees the header, the decompression of line
    58 raises on the plain body, and the document is lost with an error line.
    The resolver returns no URL where the same document served plain gives
    two. *)
Theorem encoded_sitemap_is_lost :
  let E := Cases.decoding_site in
  let self := Demo.crawler in
  match sitemap_request E self "/a-encoded.xml", sitemap_request E self "/a.xml" with
  | inr encoded, inr plain =>
      headers encoded "Content-Encoding" = Some "gzip"
      ∧ headers plain "Content-Encoding" = None
      ∧ content encoded = content plain
  | _, _ => False
  end
  ∧ fetch_url E self "/a-encoded.xml"
    = (None,
       [Get "/a-encoded.xml" [("User-Agent", user_agent self); ("Accept", accept_value)]
            (timeout self);
        Log ERROR (FailedToFetch "/a-encoded.xml" (LibraryError "BadGzipFile"))])
  ∧ (fetch_url E self "/a.xml").1 = Some "a"
  ∧ (get_urls_from_sitemap E (with_sitemap_url self "/a-encoded.xml") 5).1 = Returned []
  ∧ (get_urls_from_sitemap E (with_sitemap_url self "/a.xml") 5).1
    = Returned ["/p1"; "/p2"].
Proof. vm_compute. done. Qed.



(** * Properties of the visits and of the crawl *)

(** ** Helper facts *)











Lemma summary_eq d :
  summary d
  = [Log INFO CrawlCompleted]
      ++ map (λ item, Log INFO (LanguageCount item.1 (size item.2))) d
      ++ [Log INFO (TotalProcessed (sum_list_with (λ item, size item.2) d))].
Proof.
  unfold summary. do 5 f_equal.
  assert (Hfold : ∀ n, foldl (λ total item, total + size item.2) n d
                       = n + sum_list_with (λ item, size item.2) d).
  { induction d as [|[k v] d IH]; intros n; simpl; [lia|]. rewrite IH. lia. }
  apply Hfold.
Qed.

(** ** The properties *)








(** What C10 says of a single call holds: the request is reached from line
    140 only, with the URL in the language's set, and the request leaves the
    tracker as it is, whatever the outcome. *)
Lemma mark_precedes_request E self url language_name language_header at_ self' ev :
  visit_url_step E self url language_name language_header at_
  = (inr (self', Some Request), ev) →
  at_ = AddVisited
  ∧ (∃ visited, dict_get language_name (visited_urls self') = Some visited
                ∧ url ∈ visited)
  ∧ visit_url_step E self' url language_name language_header Request
    = (inr (self', None), visit_request E self' url language_name language_header).
Proof.
  destruct at_; simpl; intros Hstep.
  - by destruct (negb _).
  - done.
  - destruct (dict_get language_name (visited_urls self)); [|done].
    by case_bool_decide.
  - destruct (dict_get language_name (visited_urls self)) as [visited|] eqn:Hget;
      [|done].
    simplify_eq. split_and!; [done| |done].
    exists (visited ∪ {[url]}). simpl. rewrite dict_get_set.
    rewrite bool_decide_eq_true_2 by done. split; [done|set_solver].
  - done.
Qed.

(** C10 fails on the code when two tasks race on line 134. With two workers
    and three page URLs: both tasks find "French" missing (line 133), the first
    creates the set and adds its URL (lines 134-140), then the second creates
    the set again (line 134) and the first URL is gone. All three URLs are
    requested in French, and the summary counts two, and 17 in total. Under
    the schedule that runs the tasks in turn the counts are 3 and 18, as they
    are with one worker on every site ([one_worker_counts_every_visit]). *)
Theorem racing_set_creation_loses_a_visit :
  let racing := crawl Demo.site Demo.crawler 10 [0; 1; 0; 1; 0; 0; 0; 1] in
  let in_turn := crawl Demo.site Demo.crawler 10 [] in
  visited_under "fr,fr-FR;q=0.9" racing.2 = ["/p3"; "/p1"; "/p2"]
  ∧ summary_lines racing.2
    = [CrawlCompleted; LanguageCount "French" 2; LanguageCount "German" 3;
       LanguageCount "Dutch" 3; LanguageCount "Polish" 3;
       LanguageCount "Swedish" 3; LanguageCount "Finnish" 3; TotalProcessed 17]
  ∧ visited_under "fr,fr-FR;q=0.9" in_turn.2 = ["/p3"; "/p1"; "/p2"]
  ∧ summary_lines in_turn.2
    = [CrawlCompleted; LanguageCount "French" 3; LanguageCount "German" 3;
       LanguageCount "Dutch" 3; LanguageCount "Polish" 3;
       LanguageCount "Swedish" 3; LanguageCount "Finnish" 3; TotalProcessed 18].
Proof. vm_compute. done. Qed.

(** * Further properties of the resolver *)

Lemma requested_app ev1 ev2 : requested (ev1 ++ ev2) = requested ev1 ++ requested ev2.
Proof. apply omap_app. Qed.

Lemma fetch_url_requested E self u : requested (fetch_url E self u).2 = [u].
Proof.
  unfold fetch_url.
  destruct (requests_get E u _ _) as [e|r]; [done|].
  destruct (raise_for_status r); [done|].
  destruct (_ || _); [|done].
  by destruct (gunzip E (content r)).
Qed.

Lemma parse_sitemap_requested E content : requested (parse_sitemap E content).2 = [].
Proof.
  unfold parse_sitemap. destruct (negb _); [done|].
  destruct (fromstring E _); [done|]. by case_bool_decide.
Qed.

Lemma while_body_requested E self u q acc :
  requested (while_body E self u q acc).2 = [u].
Proof.
  unfold while_body.
  pose proof (fetch_url_requested E self u) as Hf.
  destruct (fetch_url E self u) as [content ev1]; simpl in *.
  destruct (negb (truthy content)).
  { simpl. by rewrite Hf. }
  pose proof (parse_sitemap_requested E content) as Hp.
  destruct (parse_sitemap E content) as [value ev2]; simpl in *.
  destruct (unpack2 value) as [e|[urls [|]]]; simpl;
    rewrite ?requested_app, ?Hf, ?Hp; done.
Qed.

Lemma while_loop_requested E self fuel q acc :
  requested (while_loop E self fuel q acc).2 = dequeued (while_loop E self fuel q acc).2.
Proof.
  revert q acc. induction fuel as [|fuel IH]; intros [|u q] acc; try done.
  rewrite while_loop_cons.
  specialize (IH (q ++ child_sitemaps E self u) (acc ++ page_urls E self u)).
  destruct (while_loop E self fuel _ _) as [r evs]. simpl in *.
  by rewrite requested_app, dequeued_app, while_body_requested, while_body_dequeued, IH.
Qed.

Lemma get_urls_from_sitemap_requested E self fuel :
  requested (get_urls_from_sitemap E self fuel).2
  = dequeued (get_urls_from_sitemap E self fuel).2.
Proof.
  unfold get_urls_from_sitemap.
  pose proof (while_loop_requested E self fuel [sitemap_url self] []) as Hl.
  destruct (while_loop E self fuel _ _) as [[acc|e|] ev]; simpl in *; try done.
  by rewrite requested_app, dequeued_app, Hl.
Qed.

(** X1. The resolver sends one request per location it takes off the queue,
    for that location and in that order: nothing is fetched twice for one
    dequeue, nothing is retried, and nothing is dequeued without a fetch. *)
Theorem resolver_requests_each_dequeued_location_once E self fuel :
  requested (get_urls_from_sitemap E self fuel).2
  = dequeued (get_urls_from_sitemap E self fuel).2.
Proof. apply get_urls_from_sitemap_requested. Qed.






(** * Further properties of the parser *)

Lemma loc_texts_not_empty entries : Forall (λ u, u ≠ "") (loc_texts entries).
Proof.
  unfold loc_texts. induction entries as [|e entries IH]; simpl; [done|].
  apply Forall_app. split; [|done].
  destruct (find_child "loc" e) as [loc|]; [|done].
  by destruct (text_of loc) as [[|c s]|]; repeat constructor.
Qed.

Lemma parse_sitemap_not_empty E content urls is_index :
  (parse_sitemap E content).1 = Pair urls is_index → Forall (λ u, u ≠ "") urls.
Proof.
  unfold parse_sitemap. destruct (negb _); [done|].
  destruct (fromstring E _); simpl.
  - intros; simplify_eq. constructor.
  - case_bool_decide; simpl; intros; simplify_eq; apply loc_texts_not_empty.
Qed.

Lemma sitemap_doc_not_empty E self u urls is_index :
  sitemap_doc E self u = Some (urls, is_index) → Forall (λ u, u ≠ "") urls.
Proof.
  unfold sitemap_doc. destruct (truthy _); [|done].
  destruct (parse_sitemap E _).1 as [|urls' b] eqn:Hp; [done|].
  intros; simplify_eq. by eapply parse_sitemap_not_empty.
Qed.

Lemma child_sitemaps_not_empty E self u : Forall (λ u, u ≠ "") (child_sitemaps E self u).
Proof.
  unfold child_sitemaps.
  destruct (sitemap_doc E self u) as [[urls [|]]|] eqn:Hd; try done.
  by eapply sitemap_doc_not_empty.
Qed.

Lemma page_urls_not_empty E self u : Forall (λ u, u ≠ "") (page_urls E self u).
Proof.
  unfold page_urls.
  destruct (sitemap_doc E self u) as [[urls [|]]|] eqn:Hd; try done.
  by eapply sitemap_doc_not_empty.
Qed.

Lemma while_loop_dequeued_not_empty E self fuel q acc :
  Forall (λ u, u ≠ "") q →
  Forall (λ u, u ≠ "") (dequeued (while_loop E self fuel q acc).2).
Proof.
  revert q acc. induction fuel as [|fuel IH]; intros [|u q] acc Hq; try done.
  rewrite while_loop_cons.
  specialize (IH (q ++ child_sitemaps E self u) (acc ++ page_urls E self u)).
  destruct (while_loop E self fuel _ _) as [r evs]. simpl in *.
  rewrite dequeued_app, while_body_dequeued.
  apply Forall_cons in Hq as [Hu Hq]. apply Forall_app. split; [by constructor|].
  apply IH, Forall_app. split; [done|]. apply child_sitemaps_not_empty.
Qed.

(** X4. No location the resolver returns is the empty string, and below the
    root it never takes an empty location off the queue: a [loc] element
    without text is skipped, in url sets and in indexes alike. *)
Theorem resolver_skips_empty_locations E self fuel urls ev :
  get_urls_from_sitemap E self fuel = (Returned urls, ev) →
  Forall (λ u, u ≠ "") urls ∧ Forall (λ u, u ≠ "") (tail (dequeued ev)).
Proof.
  intros Hrun. split.
  - apply Forall_forall. intros p Hp.
    apply (get_urls_from_sitemap_elements E self fuel urls ev Hrun) in Hp
      as (v & _ & Hp).
    pose proof (page_urls_not_empty E self v) as Hv.
    by eapply Forall_forall in Hv.
  - apply get_urls_from_sitemap_returned in Hrun as (all & ev' & Hloop & _ & ->).
    rewrite dequeued_app. simpl. rewrite app_nil_r.
    destruct fuel as [|fuel]; [by simplify_eq/=|].
    rewrite while_loop_cons in Hloop. simpl in Hloop.
    pose proof (while_loop_dequeued_not_empty E self fuel
                  (child_sitemaps E self (sitemap_url self))
                  (page_urls E self (sitemap_url self))
                  (child_sitemaps_not_empty E self _)) as Hd.
    destruct (while_loop E self fuel _ _) as [r evs]. simplify_eq/=.
    by rewrite dequeued_app, while_body_dequeued.
Qed.

Lemma resolver_skips_empty_locations_witness :
  Forall (λ u, u ≠ "") ["/p3"; "/p1"; "/p2"]
  ∧ Forall (λ u, u ≠ "")
      (tail (dequeued (get_urls_from_sitemap Demo.site Demo.crawler 10).2)).
Proof.
  apply (resolver_skips_empty_locations Demo.site Demo.crawler 10
           ["/p3"; "/p1"; "/p2"] (get_urls_from_sitemap Demo.site Demo.crawler 10).2).
  vm_compute. reflexivity.
Defined.

Lemma descendants_cons t x c cs :
  descendants (Element t x (c :: cs))
  = c :: descendants c ++ descendants (Element t x cs).
Proof. done. Qed.

Lemma findall_flat root_tag entry_tag (locs : list string) :
  entry_tag ≠ "loc" →
  loc_texts (findall_below entry_tag (Element root_tag None
     (map (λ l, Element entry_tag None [Element "loc" (Some l) []]) locs)))
  = filter (λ l, l ≠ "") locs.
Proof.
  intros Htag. unfold findall_below, loc_texts.
  induction locs as [|l locs IH]; [done|].
  cbn [map]. rewrite descendants_cons.
  change (descendants (Element entry_tag None [Element "loc" (Some l) []]))
    with [Element "loc" (Some l) []].
  cbn [app List.filter tag_of].
  rewrite bool_decide_true by done.
  rewrite (bool_decide_false ("loc" = entry_tag)) by done.
  cbn [flat_map]. rewrite IH.
  unfold find_child. cbn [children_of List.find tag_of text_of].
  rewrite bool_decide_true by done.
  rewrite filter_cons. destruct l; [by rewrite decide_False by naive_solver|].
  by rewrite decide_True by done.
Qed.

(** X5. A flat document of the usual shape, a [urlset] of [url] entries or a
    [sitemapindex] of [sitemap] entries, each holding one [loc], parses to
    its non-empty locations in document order, flagged as index or not, and
    logs nothing. *)
Theorem parse_sitemap_reads_flat_documents E body (is_index : bool) locs :
  body ≠ "" →
  fromstring E (remove_all sitemap_xmlns body)
  = inr (if is_index then Demo.sitemapindex locs else Demo.urlset locs) →
  parse_sitemap E (Some body) = (Pair (filter (λ l, l ≠ "") locs) is_index, []).
Proof.
  intros Hbody Hroot. unfold parse_sitemap.
  destruct body as [|c body]; [done|]. cbn [truthy negb from_option id]. rewrite Hroot.
  destruct is_index; unfold Demo.sitemapindex, Demo.urlset; cbn [tag_of].
  - rewrite bool_decide_true by done. by rewrite findall_flat.
  - rewrite bool_decide_false by done. by rewrite findall_flat.
Qed.

Lemma parse_sitemap_reads_flat_documents_witness :
  parse_sitemap Demo.site (Some "b") = (Pair ["/p2"; "/p3"] false, []).
Proof.
  apply (parse_sitemap_reads_flat_documents Demo.site "b" false ["/p2"; "/p3"]).
  - done.
  - vm_compute. reflexivity.
Defined.

(** * Properties of the string helpers *)

Lemma string_app_cons x a b : String x a +:+ b = String x (a +:+ b).
Proof. done. Qed.

Lemma prefix_app a b : String.prefix a (a +:+ b) = true.
Proof.
  induction a as [|c a IH]; [by destruct b|].
  rewrite string_app_cons. simpl. by destruct (Ascii.ascii_dec c c).
Qed.

Lemma prefix_inv a s : String.prefix a s = true → ∃ b, s = a +:+ b.
Proof.
  revert s. induction a as [|c a IH]; intros s.
  - intros _. by exists s.
  - destruct s as [|c' s]; [done|]. simpl.
    destruct (Ascii.ascii_dec c c') as [->|]; [|done].
    intros [b ->]%IH. by exists b.
Qed.

Lemma string_app_assoc a b c : (a +:+ b) +:+ c = a +:+ b +:+ c.
Proof. induction a as [|x a IH]; [done|]. rewrite !string_app_cons. by f_equal. Qed.

Lemma rev_app_spec a b c : String.rev_app (a +:+ b) c = String.rev_app b (String.rev_app a c).
Proof.
  revert c. induction a as [|x a IH]; intros c; [done|].
  rewrite string_app_cons. simpl. by rewrite IH.
Qed.

Lemma rev_app_append a c : String.rev_app a c = String.rev a +:+ c.
Proof.
  unfold String.rev. revert c. induction a as [|x a IH]; intros c; simpl; [done|].
  rewrite (IH (String x c)), (IH (String x "")), string_app_assoc. done.
Qed.

Lemma string_rev_app a b : String.rev (a +:+ b) = String.rev b +:+ String.rev a.
Proof. unfold String.rev at 1. by rewrite rev_app_spec, rev_app_append. Qed.

Lemma string_rev_involutive a : String.rev (String.rev a) = a.
Proof.
  induction a as [|x a IH]; [done|].
  change (String x a) with (String x "" +:+ a) at 1.
  rewrite string_rev_app, string_rev_app, IH. done.
Qed.

Lemma endswith_spec s suffix : endswith s suffix = true ↔ ∃ p, s = p +:+ suffix.
Proof.
  unfold endswith. split.
  - intros [q Hq]%prefix_inv. exists (String.rev q).
    rewrite <-(string_rev_involutive s), Hq, string_rev_app.
    by rewrite string_rev_involutive.
  - intros [p ->]. rewrite string_rev_app. apply prefix_app.
Qed.

Lemma remove_all_aux_skip old a s :
  remove_all_aux old (String.length a) (a +:+ s) = remove_all_aux old 0 s.
Proof.
  induction a as [|c a IH]; [by destruct s|].
  rewrite string_app_cons. done.
Qed.

Lemma remove_all_leading old s :
  old ≠ "" → remove_all old (old +:+ s) = remove_all old s.
Proof.
  destruct old as [|c old]; [done|]. intros _. unfold remove_all.
  change (String c old +:+ s) with (String c (old +:+ s)).
  cbn [remove_all_aux].
  change (String c (old +:+ s)) with (String c old +:+ s).
  rewrite prefix_app. cbn [String.length]. rewrite Nat.sub_1_r. cbn [Nat.pred].
  apply remove_all_aux_skip.
Qed.

Lemma remove_all_absent old s : ¬ occurs old s → remove_all old s = s.
Proof.
  unfold remove_all. induction s as [|c s IH]; intros Hocc; [done|].
  cbn [remove_all_aux].
  destruct (String.prefix old (String c s)) eqn:Hp.
  - apply prefix_inv in Hp as [b Hb]. destruct Hocc. by exists "", b.
  - rewrite IH; [done|]. intros (a & b & ->). destruct Hocc.
    by exists (String c a), b.
Qed.

(** X6. Dropping the namespace attribute, [content.replace(old, b'')]: a
    leading occurrence of a non-empty [old] is dropped and the scan goes on
    behind it; content in which [old] does not occur is left as it is. *)
Theorem replace_drops_occurrences_only old s :
  old ≠ "" →
  remove_all old (old +:+ s) = remove_all old s
  ∧ (¬ occurs old s → remove_all old s = s).
Proof.
  intros Hold. split; [by apply remove_all_leading|apply remove_all_absent].
Qed.

Lemma replace_drops_occurrences_only_witness :
  remove_all sitemap_xmlns (sitemap_xmlns +:+ ">") = remove_all sitemap_xmlns ">"
  ∧ remove_all sitemap_xmlns ">" = ">".
Proof.
  destruct (replace_drops_occurrences_only sitemap_xmlns ">") as [Hdrop Hkeep].
  - discriminate.
  - split; [exact Hdrop|]. apply Hkeep.
    intros (a & b & H). destruct a as [|x [|y a]]; discriminate.
Defined.

(** * Further properties of fetch_url *)

(** X7. On an answer that is no 4xx or 5xx, [fetch_url] decompresses the
    body when the location ends in [.gz] or the answer says
    [Content-Encoding: gzip], whatever the other says: a body that does not
    decompress is then lost with an error line. Otherwise the body is
    returned as received. *)
Theorem fetch_url_decompresses_by_name_or_header E self url r :
  sitemap_request E self url = inr r →
  raise_for_status r = None →
  let request := Get url [("User-Agent", user_agent self); ("Accept", accept_value)]
                     (timeout self) in
  ((∃ p, url = p +:+ ".gz") ∨ headers r "Content-Encoding" = Some "gzip" →
   fetch_url E self url
   = match gunzip E (content r) with
     | inr body => (Some body, [request])
     | inl e => (None, [request; Log ERROR (FailedToFetch url e)])
     end)
  ∧ ((∀ p, url ≠ p +:+ ".gz") → headers r "Content-Encoding" ≠ Some "gzip" →
     fetch_url E self url = (Some (content r), [request])).
Proof.
  unfold sitemap_request, fetch_url. intros -> ->. split.
  - intros Hgz.
    assert (bool_decide (headers r "Content-Encoding" = Some "gzip")
            || endswith url ".gz" = true) as ->.
    { destruct Hgz as [Hp|Hh].
      - apply endswith_spec in Hp as ->. apply orb_true_r.
      - by rewrite bool_decide_true. }
    by destruct (gunzip E (content r)).
  - intros Hname Hheader.
    rewrite bool_decide_false by done.
    destruct (endswith url ".gz") eqn:Hsuffix; [|done].
    apply endswith_spec in Hsuffix as [p ->]. by destruct (Hname p).
Qed.

Lemma fetch_url_decompresses_by_name_or_header_witness :
  fetch_url Demo.site Demo.crawler "/a.xml.gz"
  = (Some "a", [Get "/a.xml.gz" [("User-Agent", user_agent Demo.crawler);
                                 ("Accept", accept_value)] 30]).
Proof.
  refine (proj1 (fetch_url_decompresses_by_name_or_header Demo.site Demo.crawler
                   "/a.xml.gz"
                   {| status_code := 200; headers := λ _, None; content := "a.gz";
                      text := "a.gz" |} _ _) _).
  - reflexivity.
  - reflexivity.
  - left. by exists "/a.xml".
Defined.

(** * Further properties of visit_url *)

Lemma visit_request_with_visited_urls E self d url n h :
  visit_request E (with_visited_urls self d) url n h = visit_request E self url n h.
Proof. done. Qed.

Lemma with_visited_urls_twice self d d' :
  with_visited_urls (with_visited_urls self d) d' = with_visited_urls self d'.
Proof. done. Qed.

Lemma with_visited_urls_same self : with_visited_urls self (visited_urls self) = self.
Proof. by destruct self. Qed.

Lemma tracked_set k v d k' :
  tracked k' (dict_set k v d) = if bool_decide (k = k') then v else tracked k' d.
Proof. unfold tracked. rewrite dict_get_set. by case_bool_decide. Qed.

Lemma visit_url_from_S E steps self url n h at_ :
  visit_url_from E (S steps) self url n h at_
  = match visit_url_step E self url n h at_ with
    | (inl e, ev) => (inl e, ev)
    | (inr (self, None), ev) => (inr self, ev)
    | (inr (self, Some at_), ev) =>
        let '(r, evs) := visit_url_from E steps self url n h at_ in
        (r, ev ++ evs)
    end.
Proof. done. Qed.

Ltac visit_step := rewrite visit_url_from_S; cbn [visit_url_step].

Lemma visit_url_first E self url n h :
  url ∉ tracked n (visited_urls self) →
  visit_url E self url n h
  = (inr (with_visited_urls self
            (dict_set n (tracked n (visited_urls self) ∪ {[url]})
               (match dict_get n (visited_urls self) with
                | Some _ => visited_urls self
                | None => dict_set n ∅ (visited_urls self)
                end))),
     visit_request E self url n h).
Proof.
  unfold tracked, visit_url. intros Hurl. visit_step. unfold dict_mem.
  destruct (dict_get n (visited_urls self)) as [s|] eqn:Hget; cbn [from_option id] in *.
  - rewrite bool_decide_true by done. cbn [negb].
    visit_step. rewrite Hget, bool_decide_false by done.
    visit_step. rewrite Hget. visit_step. done.
  - rewrite bool_decide_false by (by intros [??]). cbn [negb].
    visit_step. visit_step. cbn [visited_urls with_visited_urls].
    rewrite dict_get_set, bool_decide_true by done.
    rewrite bool_decide_false by set_solver.
    visit_step. cbn [visited_urls with_visited_urls].
    rewrite dict_get_set, bool_decide_true by done.
    visit_step. rewrite with_visited_urls_twice. cbn [app]. 
    by rewrite !visit_request_with_visited_urls.
Qed.

Lemma visit_url_again E self url n h :
  url ∈ tracked n (visited_urls self) →
  visit_url E self url n h = (inr self, [Log DEBUG (AlreadyVisited url n)]).
Proof.
  unfold tracked, visit_url. intros Hurl. visit_step. unfold dict_mem.
  destruct (dict_get n (visited_urls self)) as [s|] eqn:Hget; cbn [from_option id] in *;
    [|set_solver].
  rewrite bool_decide_true by done. cbn [negb]. visit_step. rewrite Hget.
  by rewrite bool_decide_true by done.
Qed.

Lemma first_visit_facts E self url n h :
  url ∉ tracked n (visited_urls self) →
  ∃ self',
    visit_url E self url n h = (inr self', visit_request E self url n h)
    ∧ tracked n (visited_urls self') = tracked n (visited_urls self) ∪ {[url]}
    ∧ (∀ n', n' ≠ n →
         dict_get n' (visited_urls self') = dict_get n' (visited_urls self))
    ∧ self' = with_visited_urls self (visited_urls self').
Proof.
  intros Hurl. eexists. split; [by apply visit_url_first|].
  cbn [visited_urls with_visited_urls]. split_and!.
  - by rewrite tracked_set, bool_decide_true.
  - intros n' Hn'. rewrite dict_get_set, bool_decide_false by done.
    destruct (dict_get n (visited_urls self)); [done|].
    by rewrite dict_get_set, bool_decide_false.
  - done.
Qed.

(** X8. A visit of a URL the tracker does not hold for the language marks
    it there and then sends the request, whatever the request's outcome: a
    page that failed counts as visited. The sets of the other languages and
    the other fields stay as they were. *)
Theorem first_visit_marks_and_requests E self url n h :
  url ∉ tracked n (visited_urls self) →
  ∃ self',
    visit_url E self url n h = (inr self', visit_request E self url n h)
    ∧ tracked n (visited_urls self') = tracked n (visited_urls self) ∪ {[url]}
    ∧ (∀ n', n' ≠ n →
         dict_get n' (visited_urls self') = dict_get n' (visited_urls self))
    ∧ self' = with_visited_urls self (visited_urls self').
Proof. apply first_visit_facts. Qed.

Lemma first_visit_marks_and_requests_witness :
  ∃ self',
    visit_url Demo.site Demo.crawler "/down" "French" "fr,fr-FR;q=0.9"
    = (inr self', visit_request Demo.site Demo.crawler "/down" "French" "fr,fr-FR;q=0.9")
    ∧ tracked "French" (visited_urls self')
      = tracked "French" (visited_urls Demo.crawler) ∪ {["/down"]}
    ∧ (∀ n', n' ≠ "French" →
         dict_get n' (visited_urls self') = dict_get n' (visited_urls Demo.crawler))
    ∧ self' = with_visited_urls Demo.crawler (visited_urls self').
Proof.
  apply (first_visit_marks_and_requests Demo.site Demo.crawler "/down" "French"
           "fr,fr-FR;q=0.9").
  apply not_elem_of_empty.
Defined.

(** X9. [visit_url] always returns, leaves the URL tracked under the
    language, and a second visit of the same URL under the same language
    sends no request: it changes nothing and logs one debug line. *)
Theorem second_visit_makes_no_request E self url n h :
  ∃ self' ev,
    visit_url E self url n h = (inr self', ev)
    ∧ url ∈ tracked n (visited_urls self')
    ∧ visit_url E self' url n h = (inr self', [Log DEBUG (AlreadyVisited url n)]).
Proof.
  destruct (decide (url ∈ tracked n (visited_urls self))) as [Hin|Hout].
  - exists self, [Log DEBUG (AlreadyVisited url n)].
    split_and!; [by apply visit_url_again|done|by apply visit_url_again].
  - eexists _, _. split; [by apply visit_url_first|].
    assert (Hin : url ∈ tracked n (visited_urls (with_visited_urls self
              (dict_set n (tracked n (visited_urls self) ∪ {[url]})
                 (match dict_get n (visited_urls self) with
                  | Some _ => visited_urls self
                  | None => dict_set n ∅ (visited_urls self)
                  end))))).
    { cbn [visited_urls with_visited_urls].
      rewrite tracked_set, bool_decide_true by done. set_solver. }
    split; [done|]. by apply visit_url_again.
Qed.

(** * Further properties of process_url_with_all_languages *)

Lemma run_task_S E steps self w :
  run_task E (S steps) self w
  = match worker_step E self w with
    | (self, None, ev) => (self, ev)
    | (self, Some w, ev) =>
        let '(self, evs) := run_task E steps self w in (self, ev ++ evs)
    end.
Proof. done. Qed.

Lemma run_task_nil E steps self url a :
  run_task E steps self (Worker url [] a) = (self, []).
Proof. by destruct steps. Qed.

Lemma run_task_completed E steps self url n h rest :
  run_task E (S steps) self (Worker url ((n, h) :: rest) Completed)
  = let '(self', evs) := run_task E steps self (Worker url rest (InVisit TestLanguage)) in
    (self', Log INFO (CompletedProcessing url n) :: evs).
Proof.
  rewrite run_task_S. cbn [worker_step w_langs w_at w_url].
  destruct rest as [|l rest]; [by rewrite run_task_nil|].
  by destruct (run_task E steps self _).
Qed.

Ltac task_step :=
  rewrite run_task_S; cbn [worker_step w_langs w_at w_url visit_url_step].

Lemma run_task_for E url langs steps self :
  (6 * length langs ≤ steps)%nat →
  for_each_language E self url langs
  = (inr (run_task E steps self (Worker url langs (InVisit TestLanguage))).1,
     (run_task E steps self (Worker url langs (InVisit TestLanguage))).2).
Proof.
  revert steps self. induction langs as [|[n h] rest IH]; intros steps self Hsteps.
  { by rewrite run_task_nil. }
  cbn [length] in Hsteps.
  destruct steps as [|[|[|[|[|[|k]]]]]]; try lia.
  cbn [for_each_language].
  destruct (decide (url ∈ tracked n (visited_urls self))) as [Hin|Hout].
  - rewrite visit_url_again by done.
    unfold tracked in Hin. task_step. unfold dict_mem.
    destruct (dict_get n (visited_urls self)) as [s|] eqn:Hget; [|set_solver].
    cbn [from_option id] in Hin.
    rewrite bool_decide_true by done. cbn [negb].
    task_step. rewrite Hget, bool_decide_true by done.
    rewrite run_task_completed.
    rewrite (IH (S (S (S k))) self) by lia.
    by destruct (run_task E (S (S (S k))) self _).
  - rewrite visit_url_first by done.
    unfold tracked in *. task_step. unfold dict_mem.
    destruct (dict_get n (visited_urls self)) as [s|] eqn:Hget;
      cbn [from_option id] in *.
    + rewrite bool_decide_true by done. cbn [negb].
      task_step. rewrite Hget, bool_decide_false by done.
      task_step. rewrite Hget.
      task_step. rewrite run_task_completed.
      rewrite (IH (S k)) by lia.
      rewrite visit_request_with_visited_urls.
      destruct (run_task E (S k) _ _). cbn [fst snd]. rewrite ?app_nil_l, <-?app_assoc. done.
    + rewrite bool_decide_false by (by intros [??]). cbn [negb].
      task_step. task_step. cbn [visited_urls with_visited_urls].
      rewrite dict_get_set, bool_decide_true by done.
      rewrite bool_decide_false by set_solver.
      task_step. cbn [visited_urls with_visited_urls].
      rewrite dict_get_set, bool_decide_true by done.
      task_step. rewrite run_task_completed.
      rewrite (IH k) by lia.
      rewrite !with_visited_urls_twice, !visit_request_with_visited_urls.
      destruct (run_task E k _ _). cbn [fst snd]. rewrite ?app_nil_l, <-?app_assoc. done.
Qed.

(** X10. A task that runs without interruption is the [for] loop of the
    source: [visit_url] under each language of [LANGUAGES] in turn, each
    followed by its "Completed processing" line; no step raises. *)
Theorem process_url_is_a_visit_per_language E self url :
  for_each_language E self url LANGUAGES
  = (inr (process_url_with_all_languages E self url).1,
     (process_url_with_all_languages E self url).2).
Proof. by apply run_task_for. Qed.

Lemma request_languages_app ev1 ev2 :
  request_languages (ev1 ++ ev2) = request_languages ev1 ++ request_languages ev2.
Proof. apply omap_app. Qed.

Lemma visit_request_requested E self url n h :
  requested (visit_request E self url n h) = [url]
  ∧ request_languages (visit_request E self url n h) = [h].
Proof.
  unfold visit_request.
  destruct (requests_get E url _ _) as [e|r]; [done|].
  by case_bool_decide.
Qed.

Lemma visit_url_tracked E self url n h self' ev :
  visit_url E self url n h = (inr self', ev) →
  url ∈ tracked n (visited_urls self')
  ∧ ∀ n' x, x ∈ tracked n' (visited_urls self) → x ∈ tracked n' (visited_urls self').
Proof.
  destruct (decide (url ∈ tracked n (visited_urls self))) as [Hin|Hout].
  - rewrite visit_url_again by done. by intros; simplify_eq.
  - rewrite visit_url_first by done. intros; simplify_eq.
    cbn [visited_urls with_visited_urls]. split.
    + rewrite tracked_set, bool_decide_true by done. set_solver.
    + intros n' x Hx. rewrite tracked_set. case_bool_decide; [set_solver|].
      destruct (dict_get n (visited_urls self)); [done|].
      by rewrite tracked_set, bool_decide_false.
Qed.

Lemma for_each_language_fresh E url langs self :
  NoDup langs.*1 →
  (∀ n, n ∈ langs.*1 → url ∉ tracked n (visited_urls self)) →
  ∃ self' ev,
    for_each_language E self url langs = (inr self', ev)
    ∧ requested ev = replicate (length langs) url
    ∧ request_languages ev = langs.*2
    ∧ (∀ n, n ∈ langs.*1 → url ∈ tracked n (visited_urls self'))
    ∧ (∀ n, n ∉ langs.*1 →
         dict_get n (visited_urls self') = dict_get n (visited_urls self)).
Proof.
  revert self. induction langs as [|[n h] rest IH]; intros self Hnodup Hfresh.
  { exists self, []. split_and!; try done. by intros n ?%elem_of_nil. }
  rewrite fmap_cons in Hnodup. apply NoDup_cons in Hnodup as [Hn Hnodup].
  destruct (first_visit_facts E self url n h) as (self1 & Hvisit & Hmark & Hrest & _).
  { apply Hfresh. rewrite fmap_cons. by left. }
  destruct (IH self1 Hnodup) as (self' & ev & Hrun & Hreq & Hlang & Hin & Hout).
  { intros n' Hn'. unfold tracked. rewrite Hrest by (by intros ->).
    apply Hfresh. rewrite fmap_cons. by right. }
  cbn [for_each_language]. rewrite Hvisit, Hrun.
  destruct (visit_request_requested E self url n h) as [Hr Hl].
  eexists _, _. split; [done|]. split_and!.
  - by rewrite !requested_app, Hr, Hreq.
  - by rewrite !request_languages_app, Hl, Hlang.
  - intros n' Hn'. rewrite fmap_cons in Hn'. cbn [fst] in Hn'.
    apply elem_of_cons in Hn' as [->|Hn']; [|by apply Hin].
    assert (tracked n (visited_urls self') = tracked n (visited_urls self1)) as ->.
    { unfold tracked. by rewrite Hout. }
    rewrite Hmark. apply elem_of_union. right. by apply elem_of_singleton.
  - intros n' Hn'. rewrite fmap_cons in Hn'. apply not_elem_of_cons in Hn' as [? ?].
    by rewrite Hout, Hrest.
Qed.

(** X11. A task on a URL that no language tracks yet sends one request per
    language, in the order of [LANGUAGES], each with that language's
    [Accept-Language] value, and leaves the URL tracked under every
    language. *)
Theorem fresh_url_is_requested_once_per_language E self url :
  (∀ n, n ∈ LANGUAGES.*1 → url ∉ tracked n (visited_urls self)) →
  requested (process_url_with_all_languages E self url).2
  = replicate (length LANGUAGES) url
  ∧ request_languages (process_url_with_all_languages E self url).2 = LANGUAGES.*2
  ∧ ∀ n, n ∈ LANGUAGES.*1 →
         url ∈ tracked n (visited_urls (process_url_with_all_languages E self url).1).
Proof.
  intros Hfresh.
  destruct (for_each_language_fresh E url LANGUAGES self LANGUAGES_names_NoDup Hfresh)
    as (self' & ev & Hrun & Hreq & Hlang & Hin & _).
  rewrite (run_task_for E url LANGUAGES (6 * length LANGUAGES)) in Hrun by done.
  unfold process_url_with_all_languages. by simplify_eq.
Qed.

Lemma fresh_url_is_requested_once_per_language_witness :
  requested (process_url_with_all_languages Demo.site Demo.crawler "/p1").2
  = replicate (length LANGUAGES) "/p1"
  ∧ request_languages (process_url_with_all_languages Demo.site Demo.crawler "/p1").2
    = LANGUAGES.*2
  ∧ ∀ n, n ∈ LANGUAGES.*1 →
         "/p1" ∈ tracked n (visited_urls
                    (process_url_with_all_languages Demo.site Demo.crawler "/p1").1).
Proof.
  apply (fresh_url_is_requested_once_per_language Demo.site Demo.crawler "/p1").
  intros n _. apply not_elem_of_empty.
Defined.

Lemma for_each_language_tracked E url langs self self' ev :
  for_each_language E self url langs = (inr self', ev) →
  (∀ n, n ∈ langs.*1 → url ∈ tracked n (visited_urls self'))
  ∧ ∀ n, url ∈ tracked n (visited_urls self) → url ∈ tracked n (visited_urls self').
Proof.
  revert self ev. induction langs as [|[n h] rest IH]; intros self ev.
  { intros; simplify_eq/=. split; [by intros n ?%elem_of_nil|done]. }
  cbn [for_each_language].
  destruct (visit_url E self url n h) as [[e|self1] ev1] eqn:Hvisit; [done|].
  apply visit_url_tracked in Hvisit as [Hn Hmono].
  destruct (for_each_language E self1 url rest) as [r evs] eqn:Hrest.
  intros; simplify_eq. apply IH in Hrest as [Hin Hmono'].
  split; [|by auto].
  intros n' Hn'. rewrite fmap_cons in Hn'. cbn [fst] in Hn'.
  apply elem_of_cons in Hn' as [->|Hn']; by auto.
Qed.

Lemma for_each_language_again E url langs self :
  (∀ n, n ∈ langs.*1 → url ∈ tracked n (visited_urls self)) →
  ∃ ev, for_each_language E self url langs = (inr self, ev) ∧ requested ev = [].
Proof.
  induction langs as [|[n h] rest IH]; intros Hin; [by exists []|].
  cbn [for_each_language]. rewrite visit_url_again.
  2:{ apply Hin. rewrite fmap_cons. by left. }
  destruct IH as (ev & -> & Hreq).
  { intros n' Hn'. apply Hin. rewrite fmap_cons. by right. }
  eexists. split; [done|]. simpl. done.
Qed.

(** X12. Running the task a second time on the same URL sends no request
    and leaves the tracker as the first run left it. *)
Theorem processing_a_url_again_requests_nothing E self url :
  let self' := (process_url_with_all_languages E self url).1 in
  (process_url_with_all_languages E self' url).1 = self'
  ∧ requested (process_url_with_all_languages E self' url).2 = [].
Proof.
  intros self'.
  pose proof (run_task_for E url LANGUAGES (6 * length LANGUAGES) self
                (Nat.le_refl _)) as Hfirst.
  apply for_each_language_tracked in Hfirst as [Hin _].
  destruct (for_each_language_again E url LANGUAGES self' Hin) as (ev & Hrun & Hreq).
  rewrite (run_task_for E url LANGUAGES (6 * length LANGUAGES)) in Hrun by done.
  unfold process_url_with_all_languages. by simplify_eq.
Qed.

(** * Further properties of the pool, under every schedule *)

Section PoolHolds.
Variable E : env.
Variable I : SitemapCrawler → list event → Prop.
Variable W : SitemapCrawler → worker → Prop.
Variable Q : string → Prop.

Hypothesis I_step : ∀ self log w self' w' ev,
  I self log → W self w → worker_step E self w = (self', w', ev) →
  I self' (log ++ ev)
  ∧ (∀ w'', w' = Some w'' → W self' w'')
  ∧ (∀ w0, W self w0 → W self' w0).
Hypothesis W_start : ∀ self u, Q u → W self (new_task u).

Lemma pool_step_holds choice p : pool_holds I W Q p → pool_holds I W Q (pool_step E choice p).
Proof.
  intros (HI & HW & HQ). unfold pool_step. destruct p as [self queue ws log].
  simpl in *.
  set (can_start := bool_decide _ && bool_decide _).
  set (i := choice `mod` _).
  destruct (ws !! i) as [w|] eqn:Hw.
  - destruct (worker_step E self w) as [[self' w'] ev] eqn:Hstep.
    rewrite <-(take_drop_middle ws i w Hw) in HW.
    apply Forall_app in HW as [HW1 HW2]. apply Forall_cons in HW2 as [Hw0 HW2].
    destruct (I_step self log w self' w' ev HI Hw0 Hstep) as (HI' & Hnew & Hmono).
    split_and!; simpl; [done| |done].
    apply Forall_app. split; [by eapply Forall_impl|].
    apply Forall_app. split; [|by eapply Forall_impl].
    destruct w' as [w'|]; [|done]. repeat constructor. by apply Hnew.
  - destruct queue as [|u queue]; [done|]. destruct can_start; [|done].
    apply Forall_cons in HQ as [Hu HQ]. split_and!; simpl; [done| |done].
    apply Forall_app. split; [done|]. repeat constructor. by apply W_start.
Qed.

Lemma run_pool_holds steps schedule p :
  pool_holds I W Q p → pool_holds I W Q (run_pool E steps schedule p).
Proof.
  revert schedule p. induction steps as [|steps IH]; intros schedule p Hinv; [done|].
  simpl. by apply IH, pool_step_holds.
Qed.

Lemma executor_map_holds self urls schedule :
  I self [] → Forall Q urls → pool_holds I W Q (executor_map E self urls schedule).
Proof. intros HI HQ. apply run_pool_holds. by split_and!. Qed.

End PoolHolds.

(** ** One statement of a task, by cases *)

Lemma worker_step_cases E self u n h rest a self' w' ev :
  worker_step E self (Worker u ((n, h) :: rest) a) = (self', w', ev) →
  match a with
  | InVisit TestLanguage =>
      self' = self ∧ ev = []
      ∧ w' = Some (Worker u ((n, h) :: rest)
                     (InVisit (if dict_mem n (visited_urls self)
                               then TestVisited else CreateSet)))
  | InVisit CreateSet =>
      self' = with_visited_urls self (dict_set n ∅ (visited_urls self)) ∧ ev = []
      ∧ w' = Some (Worker u ((n, h) :: rest) (InVisit TestVisited))
  | InVisit TestVisited =>
      self' = self
      ∧ match dict_get n (visited_urls self) with
        | None => w' = None ∧ ev = []
        | Some visited =>
            if bool_decide (u ∈ visited)
            then w' = Some (Worker u ((n, h) :: rest) Completed)
                 ∧ ev = [Log DEBUG (AlreadyVisited u n)]
            else w' = Some (Worker u ((n, h) :: rest) (InVisit AddVisited)) ∧ ev = []
        end
  | InVisit AddVisited =>
      match dict_get n (visited_urls self) with
      | None => self' = self ∧ w' = None ∧ ev = []
      | Some visited =>
          self' = with_visited_urls self
                    (dict_set n (visited ∪ {[u]}) (visited_urls self))
          ∧ w' = Some (Worker u ((n, h) :: rest) (InVisit Request)) ∧ ev = []
      end
  | InVisit Request =>
      self' = self ∧ ev = visit_request E self u n h
      ∧ w' = Some (Worker u ((n, h) :: rest) Completed)
  | Completed =>
      self' = self ∧ ev = [Log INFO (CompletedProcessing u n)]
      ∧ w' = match rest with
             | [] => None
             | _ => Some (Worker u rest (InVisit TestLanguage))
             end
  end.
Proof.
  unfold worker_step. cbn [w_langs w_at w_url].
  destruct a as [[]|]; cbn [visit_url_step].
  - destruct (dict_mem n (visited_urls self)); simpl; by intros; simplify_eq.
  - by intros; simplify_eq.
  - destruct (dict_get n (visited_urls self)) as [visited|]; [|by intros; simplify_eq].
    destruct (bool_decide (u ∈ visited)); by intros; simplify_eq.
  - destruct (dict_get n (visited_urls self)) as [visited|]; by intros; simplify_eq.
  - by intros; simplify_eq.
  - by intros; simplify_eq.
Qed.

Lemma worker_step_nil E self u a :
  worker_step E self (Worker u [] a) = (self, None, []).
Proof. done. Qed.

(** ** Only the tracker changes *)

Lemma worker_step_config E self w self' w' ev :
  worker_step E self w = (self', w', ev) →
  self' = with_visited_urls self (visited_urls self').
Proof.
  destruct w as [u [|[n h] rest] a].
  { rewrite worker_step_nil. intros; simplify_eq. by rewrite with_visited_urls_same. }
  intros Hstep%worker_step_cases.
  destruct a as [[]|]; repeat case_match; destruct_and?; simplify_eq;
    by rewrite ?with_visited_urls_same.
Qed.

Lemma executor_map_config E self urls schedule :
  pool_self (executor_map E self urls schedule)
  = with_visited_urls self (visited_urls (pool_self (executor_map E self urls schedule))).
Proof.
  assert (Hinv : pool_holds
            (λ self' _, self' = with_visited_urls self (visited_urls self'))
            (λ _ _, True) (λ _, True) (executor_map E self urls schedule)).
  { apply executor_map_holds.
    - intros self1 log w self' w' ev Hself _ Hstep%worker_step_config.
      split_and!; [|done|done].
      rewrite Hself in Hstep. by rewrite with_visited_urls_twice in Hstep.
    - done.
    - by rewrite with_visited_urls_same.
    - by apply Forall_true. }
  by destruct Hinv as (Hself & _ & _).
Qed.

(** X13. A crawl changes nothing of the crawler object but the tracker
    [visited_urls]: the root location, delay, timeout, pool size and user
    agent stay as configured, and [all_urls] is never filled. *)
Theorem crawl_changes_only_the_tracker E self fuel schedule self' :
  (crawl E self fuel schedule).1 = Returned self' →
  self' = with_visited_urls self (visited_urls self').
Proof.
  unfold crawl.
  destruct (get_urls_from_sitemap E self fuel) as [[urls|e|] ev]; [|done|done].
  destruct urls as [|u urls]; simpl; intros; simplify_eq.
  - by rewrite with_visited_urls_same.
  - apply executor_map_config.
Qed.

Lemma crawl_changes_only_the_tracker_witness :
  pool_self (executor_map Demo.site Demo.crawler ["/p3"; "/p1"; "/p2"] [2; 0; 1])
  = with_visited_urls Demo.crawler
      (visited_urls (pool_self (executor_map Demo.site Demo.crawler
                                  ["/p3"; "/p1"; "/p2"] [2; 0; 1]))).
Proof.
  apply (crawl_changes_only_the_tracker Demo.site Demo.crawler 10 [2; 0; 1]).
  vm_compute. reflexivity.
Defined.

(** ** The lines of the summary *)

Lemma summary_lines_app ev1 ev2 :
  summary_lines (ev1 ++ ev2) = summary_lines ev1 ++ summary_lines ev2.
Proof. apply omap_app. Qed.

Lemma fetch_url_summary_lines E self u : summary_lines (fetch_url E self u).2 = [].
Proof.
  unfold fetch_url.
  destruct (requests_get E u _ _) as [e|r]; [done|].
  destruct (raise_for_status r); [done|].
  destruct (_ || _); [|done].
  by destruct (gunzip E (content r)).
Qed.

Lemma parse_sitemap_summary_lines E content :
  summary_lines (parse_sitemap E content).2 = [].
Proof.
  unfold parse_sitemap. destruct (negb _); [done|].
  destruct (fromstring E _); [done|]. by case_bool_decide.
Qed.

Lemma while_body_summary_lines E self u q acc :
  summary_lines (while_body E self u q acc).2 = [].
Proof.
  unfold while_body.
  pose proof (fetch_url_summary_lines E self u) as Hf.
  destruct (fetch_url E self u) as [content ev1]; simpl in *.
  destruct (negb (truthy content)).
  { simpl. by rewrite Hf. }
  pose proof (parse_sitemap_summary_lines E content) as Hp.
  destruct (parse_sitemap E content) as [value ev2]; simpl in *.
  destruct (unpack2 value) as [e|[urls [|]]]; simpl;
    rewrite ?summary_lines_app, ?Hf, ?Hp; done.
Qed.

Lemma while_loop_summary_lines E self fuel q acc :
  summary_lines (while_loop E self fuel q acc).2 = [].
Proof.
  revert q acc. induction fuel as [|fuel IH]; intros [|u q] acc; try done.
  rewrite while_loop_cons.
  specialize (IH (q ++ child_sitemaps E self u) (acc ++ page_urls E self u)).
  destruct (while_loop E self fuel _ _) as [r evs]. simpl in *.
  by rewrite summary_lines_app, while_body_summary_lines, IH.
Qed.

Lemma get_urls_from_sitemap_summary_lines E self fuel :
  summary_lines (get_urls_from_sitemap E self fuel).2 = [].
Proof.
  unfold get_urls_from_sitemap.
  pose proof (while_loop_summary_lines E self fuel [sitemap_url self] []) as Hl.
  destruct (while_loop E self fuel _ _) as [[acc|e|] ev]; simpl in *; try done.
  by rewrite summary_lines_app, Hl.
Qed.

Lemma visit_request_summary_lines E self url n h :
  summary_lines (visit_request E self url n h) = [].
Proof.
  unfold visit_request.
  destruct (requests_get E url _ _) as [e|r]; [done|].
  by case_bool_decide.
Qed.

Lemma summary_lines_summary d :
  summary_lines (summary d)
  = [CrawlCompleted] ++ map (λ item, LanguageCount item.1 (size item.2)) d
      ++ [TotalProcessed (sum_list_with (λ item, size item.2) d)].
Proof.
  rewrite summary_eq, !summary_lines_app. f_equal. f_equal.
  induction d as [|[k v] d IH]; [done|]. simpl. by rewrite IH.
Qed.


(** ** What a task logs *)

Lemma language_header_counts h c :
  h ∈ LANGUAGES.*2 →
  sum_list_with (λ h', if bool_decide (h = h') then c else 0) LANGUAGES.*2 = c.
Proof.
  intros Hh. unfold LANGUAGES in *. cbn [fmap list_fmap snd] in *.
  repeat (apply elem_of_cons in Hh as [->|Hh]; [simpl; lia|]).
  by apply elem_of_nil in Hh.
Qed.

Lemma sum_list_with_zero {A} (l : list A) : sum_list_with (λ _, 0) l = 0.
Proof. induction l; simpl; lia. Qed.

Lemma sum_list_with_add {A} (f g : A → nat) l :
  sum_list_with (λ x, f x + g x) l = sum_list_with f l + sum_list_with g l.
Proof. induction l; simpl; lia. Qed.

Lemma sum_list_with_ext {A} (f g : A → nat) l :
  (∀ x, f x = g x) → sum_list_with f l = sum_list_with g l.
Proof. intros Hfg. induction l; simpl; [done|]. by rewrite Hfg, IHl. Qed.

Lemma sum_list_with_const {A} (l : list A) c : sum_list_with (λ _, c) l = length l * c.
Proof. induction l; simpl; lia. Qed.

Lemma worker_step_task E self w self' w' ev :
  task_ok w → worker_step E self w = (self', w', ev) →
  ∀ w'', w' = Some w'' → task_ok w'' ∧ w_url w'' = w_url w ∧ w_langs w'' ≠ [].
Proof.
  destruct w as [u [|[n h] rest] a].
  { rewrite worker_step_nil. by intros; simplify_eq. }
  intros Hok Hstep%worker_step_cases w'' ->.
  assert (task_ok (Worker u rest (InVisit TestLanguage))).
  { by apply task_ok_cons in Hok as (_ & _ & ?). }
  destruct a as [[]|]; repeat case_match; destruct_and?; simplify_eq; done.
Qed.

Lemma worker_step_log E self w self' w' ev :
  task_ok w → worker_step E self w = (self', w', ev) →
  summary_lines ev = []
  ∧ length (requested ev)
    = sum_list_with (λ h, length (visited_under h ev)) LANGUAGES.*2.
Proof.
  destruct w as [u [|[n h] rest] a].
  { rewrite worker_step_nil. intros; simplify_eq. by rewrite sum_list_with_zero. }
  intros Hok Hstep%worker_step_cases.
  apply task_ok_cons in Hok as (Hlang & _ & _).
  apply (list_elem_of_fmap_2 snd) in Hlang. simpl in Hlang.
  assert (Hrequest :
    length (requested (visit_request E self u n h))
    = sum_list_with (λ h', length (visited_under h' (visit_request E self u n h)))
                    LANGUAGES.*2).
  { rewrite (proj1 (visit_request_requested E self u n h)).
    rewrite <-(language_header_counts h 1 Hlang) at 1.
    apply sum_list_with_ext. intros h'. rewrite visit_request_visited.
    by case_bool_decide. }
  destruct a as [[]|]; repeat case_match; destruct_and?; simplify_eq;
    rewrite ?visit_request_summary_lines; (split; [done|]);
    try done; by rewrite sum_list_with_zero.
Qed.

Lemma executor_map_log E self urls schedule :
  let log := pool_log (executor_map E self urls schedule) in
  summary_lines log = []
  ∧ length (requested log)
    = sum_list_with (λ h, length (visited_under h log)) LANGUAGES.*2.
Proof.
  assert (Hinv : pool_holds
            (λ _ log, summary_lines log = []
                      ∧ length (requested log)
                        = sum_list_with (λ h, length (visited_under h log))
                                        LANGUAGES.*2)
            (λ _ w, task_ok w) (λ _, True) (executor_map E self urls schedule)).
  { apply executor_map_holds.
    - intros self1 log w self' w' ev [Hs Hr] Hok Hstep.
      destruct (worker_step_log E self1 w self' w' ev Hok Hstep) as [Hs' Hr'].
      split_and!; [| |by intros; eapply worker_step_task|done].
      + by rewrite summary_lines_app, Hs, Hs'.
      + rewrite requested_app, length_app, Hr, Hr', <-sum_list_with_add.
        apply sum_list_with_ext. intros h.
        by rewrite visited_under_app, length_app.
    - intros _ u _. by exists [].
    - split; [done|]. by rewrite sum_list_with_zero.
    - by apply Forall_true. }
  by destruct Hinv as (Hlog & _ & _).
Qed.

(** ** The keys of the tracker come in the order of LANGUAGES *)

Lemma elem_of_take_NoDup {A} (l : list A) i j x :
  NoDup l → l !! i = Some x → x ∈ take j l ↔ (i < j)%nat.
Proof.
  intros Hnd Hi. split.
  - intros (i' & Hi')%list_elem_of_lookup_1.
    apply lookup_take_Some in Hi' as [Hi' Hlt].
    by rewrite (NoDup_lookup l i i' x).
  - intros Hlt. apply list_elem_of_lookup. exists i. by apply lookup_take_Some.
Qed.

Lemma dict_set_length k v d :
  length (dict_set k v d) = if dict_mem k d then length d else S (length d).
Proof.
  rewrite <-(length_fmap fst (dict_set k v d)), dict_set_keys.
  destruct (dict_mem k d); rewrite ?length_app, length_fmap; simpl; lia.
Qed.

Lemma dict_get_mem k d v : dict_get k d = Some v → dict_mem k d = true.
Proof. intros Hget. apply dict_mem_keys, dict_get_keys. by rewrite Hget. Qed.

Lemma worker_step_order E self w self' w' ev :
  (visited_urls self).*1 = take (length (visited_urls self)) LANGUAGES.*1 →
  task_ok w → w_langs w ≠ [] →
  (languages_passed w ≤ length (visited_urls self))%nat →
  worker_step E self w = (self', w', ev) →
  (visited_urls self').*1 = take (length (visited_urls self')) LANGUAGES.*1
  ∧ (length (visited_urls self) ≤ length (visited_urls self'))%nat
  ∧ ∀ w'', w' = Some w'' →
           (languages_passed w'' ≤ length (visited_urls self'))%nat.
Proof.
  destruct w as [u [|[n h] rest] a]; [done|].
  intros Hkeys [done Hdone] _ Hpassed Hstep%worker_step_cases.
  cbn [w_langs] in Hdone.
  assert (HL : length LANGUAGES = (length done + S (length rest))%nat).
  { rewrite Hdone at 1. by rewrite length_app. }
  assert (Hn : LANGUAGES.*1 !! length done = Some n).
  { rewrite Hdone at 1. rewrite fmap_app, fmap_cons.
    rewrite <-(length_fmap fst done). by apply list_lookup_middle. }
  assert (Hmem : dict_mem n (visited_urls self) = true
                 ↔ (length done < length (visited_urls self))%nat).
  { rewrite dict_mem_keys, Hkeys.
    apply elem_of_take_NoDup; [apply LANGUAGES_names_NoDup|done]. }
  unfold languages_passed in *. cbn [w_langs w_at length] in *.
  destruct a as [[]|]; cbn [phase] in *.
  - destruct Hstep as (-> & -> & ->). split_and!; [done|done|].
    intros w'' [= <-]. cbn [w_langs w_at length].
    destruct (dict_mem n (visited_urls self)) eqn:Hm; cbn [phase];
      repeat case_bool_decide; lia.
  - destruct Hstep as (-> & -> & ->). cbn [visited_urls with_visited_urls].
    rewrite dict_set_keys, dict_set_length.
    destruct (dict_mem n (visited_urls self)) eqn:Hm.
    + pose proof (proj1 Hmem eq_refl). split_and!; [done|done|].
      intros w'' [= <-]. cbn [w_langs w_at length phase].
      repeat case_bool_decide; lia.
    + assert (Heq : length (visited_urls self) = length done).
      { assert (¬ (length done < length (visited_urls self))%nat).
        { intros Hlt. apply Hmem in Hlt. discriminate. }
        repeat case_bool_decide; lia. }
      split_and!; [|lia|].
      * rewrite Hkeys, Heq. symmetry. by apply take_S_r.
      * intros w'' [= <-]. cbn [w_langs w_at length phase].
        repeat case_bool_decide; lia.
  - destruct Hstep as [-> Hstep]. split_and!; [done|done|].
    intros w'' ->.
    destruct (dict_get n (visited_urls self)) as [visited|]; [|by destruct Hstep].
    destruct (bool_decide (u ∈ visited)); destruct Hstep as [[= ->] _];
      cbn [w_langs w_at length phase]; repeat case_bool_decide; lia.
  - destruct (dict_get n (visited_urls self)) as [visited|] eqn:Hget.
    2:{ destruct Hstep as (-> & -> & _). by split_and!. }
    destruct Hstep as (-> & -> & ->). cbn [visited_urls with_visited_urls].
    rewrite dict_set_keys, dict_set_length, (dict_get_mem _ _ _ Hget).
    split_and!; [done|done|].
    intros w'' [= <-]. cbn [w_langs w_at length phase].
    repeat case_bool_decide; lia.
  - destruct Hstep as (-> & -> & ->). split_and!; [done|done|].
    intros w'' [= <-]. cbn [w_langs w_at length phase].
    repeat case_bool_decide; lia.
  - destruct Hstep as (-> & -> & ->). split_and!; [done|done|].
    intros w'' Hw''. destruct rest as [|l rest]; [done|]. simplify_eq.
    cbn [w_langs w_at length phase] in *.
    repeat case_bool_decide; lia.
Qed.

Lemma executor_map_order E self urls schedule :
  visited_urls self = [] →
  let d := visited_urls (pool_self (executor_map E self urls schedule)) in
  d.*1 = take (length d) LANGUAGES.*1.
Proof.
  intros Hfresh.
  assert (Hinv : pool_holds
            (λ self' _, (visited_urls self').*1
                        = take (length (visited_urls self')) LANGUAGES.*1)
            (λ self' w, task_ok w ∧ w_langs w ≠ []
                        ∧ (languages_passed w ≤ length (visited_urls self'))%nat)
            (λ _, True) (executor_map E self urls schedule)).
  { apply executor_map_holds.
    - intros self1 log w self' w' ev Hkeys (Hok & Hne & Hpassed) Hstep.
      destruct (worker_step_order E self1 w self' w' ev) as (Hkeys' & Hle & Hnew);
        [done..|].
      split_and!; [done| |].
      + intros w'' ->.
        destruct (worker_step_task E self1 w self' (Some w'') ev Hok Hstep w'')
          as (? & _ & ?); [done|]. split_and!; by auto.
      + intros w0 (? & ? & ?). split_and!; [done|done|lia].
    - intros self1 u _. split_and!; [by exists []|done|].
      unfold languages_passed, new_task. cbn [w_langs w_at phase].
      rewrite Nat.sub_diag. case_bool_decide; lia.
    - by rewrite Hfresh.
    - by apply Forall_true. }
  by destruct Hinv as (Hkeys & _ & _).
Qed.

Lemma executor_map_keys E self urls schedule :
  visited_urls self = [] → NoDup urls → urls ≠ [] →
  (visited_urls (pool_self (executor_map E self urls schedule))).*1 = LANGUAGES.*1.
Proof.
  intros Hfresh Hnd Hne.
  pose proof (executor_map_order E self urls schedule Hfresh) as Hkeys.
  simpl in Hkeys. rewrite Hkeys. apply take_ge.
  destruct (decide (length LANGUAGES.*1
                    ≤ length (visited_urls (pool_self (executor_map E self urls schedule)))))%nat
    as [|Hlt]; [done|]. exfalso.
  apply Nat.nle_gt in Hlt.
  destruct (lookup_lt_is_Some_2 _ _ Hlt) as [n Hn].
  assert (Hin : n ∈ LANGUAGES.*1) by (by eapply list_elem_of_lookup_2).
  apply list_elem_of_fmap in Hin as ([n' h] & -> & Hin).
  destruct (executor_map_visits E self urls schedule n' h Hin Hnd Hfresh)
    as (_ & Hkey & _).
  specialize (Hkey Hne). rewrite Hkeys in Hkey.
  apply (elem_of_take_NoDup _ _ _ _ LANGUAGES_names_NoDup Hn) in Hkey. lia.
Qed.

Lemma crawl_summary_lines E self fuel schedule urls ev :
  get_urls_from_sitemap E self fuel = (Returned urls, ev) → urls ≠ [] →
  (crawl E self fuel schedule).1 = Returned (pool_self (executor_map E self urls schedule))
  ∧ summary_lines (crawl E self fuel schedule).2
    = summary_lines (summary (visited_urls (pool_self (executor_map E self urls schedule)))).
Proof.
  intros Hrun Hne. unfold crawl. rewrite Hrun.
  pose proof (get_urls_from_sitemap_summary_lines E self fuel) as Hev.
  rewrite Hrun in Hev. simpl in Hev.
  destruct (executor_map_log E self urls schedule) as [Hlog _].
  destruct urls as [|u urls]; [done|]. split; [done|].
  cbn [snd]. by rewrite !summary_lines_app, Hev, Hlog.
Qed.



(** ** The tracker holds resolved URLs only *)

Lemma Forall_dict_set (P : string * gset string → Prop) k v d :
  Forall P d → P (k, v) → Forall P (dict_set k v d).
Proof.
  intros Hd Hv. induction d as [|[k' v'] d IH]; simpl; [by repeat constructor|].
  apply Forall_cons in Hd as [? ?].
  case_bool_decide; constructor; by auto.
Qed.

Lemma dict_get_elem k d v : dict_get k d = Some v → (k, v) ∈ d.
Proof.
  induction d as [|[k' v'] d IH]; simpl; [done|].
  case_bool_decide; intros; simplify_eq; [by left|right; by auto].
Qed.

Lemma worker_step_within urls E self w self' w' ev :
  Forall (λ item, item.2 ⊆ list_to_set urls) (visited_urls self) →
  w_url w ∈ urls →
  worker_step E self w = (self', w', ev) →
  Forall (λ item : string * gset string, item.2 ⊆ list_to_set urls) (visited_urls self')
  ∧ ∀ w'', w' = Some w'' → w_url w'' ∈ urls.
Proof.
  destruct w as [u [|[n h] rest] a].
  { rewrite worker_step_nil. by intros; simplify_eq. }
  cbn [w_url]. intros Hd Hu Hstep%worker_step_cases.
  destruct a as [[]|].
  - destruct Hstep as (-> & -> & ->). split; [done|]. by intros w'' [= <-].
  - destruct Hstep as (-> & -> & ->). split; [|by intros w'' [= <-]].
    apply Forall_dict_set; [done|]. simpl. apply empty_subseteq.
  - destruct Hstep as [-> Hstep]. split; [done|]. intros w'' ->.
    destruct (dict_get n (visited_urls self)) as [visited|]; [|by destruct Hstep].
    by destruct (bool_decide (u ∈ visited)); destruct Hstep as [[= ->] _].
  - destruct (dict_get n (visited_urls self)) as [visited|] eqn:Hget.
    2:{ by destruct Hstep as (-> & -> & _). }
    destruct Hstep as (-> & -> & ->). split; [|by intros w'' [= <-]].
    apply Forall_dict_set; [done|]. simpl.
    apply dict_get_elem in Hget.
    eapply Forall_forall in Hd; [|done]. simpl in Hd.
    apply union_subseteq. split; [done|].
    apply singleton_subseteq_l. by apply elem_of_list_to_set.
  - destruct Hstep as (-> & -> & ->). split; [done|]. by intros w'' [= <-].
  - destruct Hstep as (-> & -> & ->). split; [done|].
    intros w'' Hw''. destruct rest; by simplify_eq.
Qed.

Lemma executor_map_within E self urls schedule :
  visited_urls self = [] →
  Forall (λ item : string * gset string, item.2 ⊆ list_to_set urls)
         (visited_urls (pool_self (executor_map E self urls schedule))).
Proof.
  intros Hfresh.
  assert (Hinv : pool_holds
            (λ self' _, Forall (λ item : string * gset string,
                                  item.2 ⊆ list_to_set urls) (visited_urls self'))
            (λ _ w, w_url w ∈ urls) (λ u, u ∈ urls)
            (executor_map E self urls schedule)).
  { apply executor_map_holds.
    - intros self1 log w self' w' ev Hd Hu Hstep.
      destruct (worker_step_within urls E self1 w self' w' ev Hd Hu Hstep).
      by split_and!.
    - done.
    - by rewrite Hfresh.
    - by apply Forall_forall. }
  by destruct Hinv as (Hd & _ & _).
Qed.

Lemma sum_list_with_le {A} (f : A → nat) (l : list A) c :
  Forall (λ x, f x ≤ c)%nat l → (sum_list_with f l ≤ length l * c)%nat.
Proof. induction 1; simpl; lia. Qed.


(** X15. Under every schedule each language's set holds resolved URLs only,
    so no count of the summary exceeds the number of URLs and the total
    never exceeds the number of requests announced at the start. *)
Theorem summary_never_over_counts E self fuel schedule urls ev :
  visited_urls self = [] →
  get_urls_from_sitemap E self fuel = (Returned urls, ev) →
  ∃ self',
    (crawl E self fuel schedule).1 = Returned self'
    ∧ Forall (λ item : string * gset string,
                item.2 ⊆ list_to_set urls ∧ (size item.2 ≤ length urls)%nat)
             (visited_urls self')
    ∧ (sum_list_with (λ item, size item.2) (visited_urls self')
       ≤ length urls * length LANGUAGES)%nat.
Proof.
  intros Hfresh Hrun. unfold crawl. rewrite Hrun.
  destruct urls as [|u0 urls0] eqn:Hurls.
  { exists self. rewrite Hfresh. split_and!; [done|done|simpl; lia]. }
  rewrite <-Hurls in *. clear Hurls. cbn [fst]. eexists. split; [done|].
  assert (Hnd : NoDup urls).
  { apply get_urls_from_sitemap_returned in Hrun as (all & ? & _ & -> & _).
    apply NoDup_list_set. }
  assert (Hall : Forall (λ item : string * gset string,
                   item.2 ⊆ list_to_set urls ∧ (size item.2 ≤ length urls)%nat)
                   (visited_urls (pool_self (executor_map E self urls schedule)))).
  { eapply Forall_impl; [by apply executor_map_within|].
    intros [k v] Hsub. split; [done|]. simpl in *.
    rewrite <-(size_list_to_set (C:=gset string) urls) by done.
    by apply subseteq_size. }
  split; [done|].
  pose proof (executor_map_order E self urls schedule Hfresh) as Hkeys.
  cbv zeta in Hkeys. apply (f_equal length) in Hkeys.
  rewrite length_fmap, length_take, length_fmap in Hkeys.
  etrans; [apply (sum_list_with_le _ _ (length urls))|].
  - eapply Forall_impl; [exact Hall|]. by intros item [_ ?].
  - rewrite (Nat.mul_comm (length urls)). apply Nat.mul_le_mono; lia.
Qed.

Lemma summary_never_over_counts_witness :
  ∃ self',
    (crawl Demo.site Demo.crawler 10 [0; 1; 0; 1; 0; 0; 0; 1]).1 = Returned self'
    ∧ Forall (λ item : string * gset string,
                item.2 ⊆ list_to_set ["/p3"; "/p1"; "/p2"]
                ∧ (size item.2 ≤ length ["/p3"; "/p1"; "/p2"])%nat)
             (visited_urls self')
    ∧ (sum_list_with (λ item, size item.2) (visited_urls self')
       ≤ length ["/p3"; "/p1"; "/p2"] * length LANGUAGES)%nat.
Proof.
  eapply (summary_never_over_counts Demo.site Demo.crawler 10
            [0; 1; 0; 1; 0; 0; 0; 1] ["/p3"; "/p1"; "/p2"]).
  - reflexivity.
  - vm_compute; reflexivity.
Defined.

(** ** One worker *)

Lemma dict_all_same (d : list (string * gset string)) ks v0 :
  d.*1 = ks → NoDup ks → (∀ k, k ∈ ks → dict_get k d = Some v0) →
  d = (λ k, (k, v0)) <$> ks.
Proof.
  revert ks. induction d as [|[k v] d IH]; intros ks <- Hnd Hget; [done|].
  rewrite fmap_cons in *. cbn [fst] in *.
  apply NoDup_cons in Hnd as [Hk Hnd]. rewrite fmap_cons. f_equal.
  - specialize (Hget k (list_elem_of_here _ _)). simpl in Hget.
    rewrite bool_decide_true in Hget by done. by simplify_eq.
  - apply IH; [done|done|]. intros k' Hk'.
    specialize (Hget k' (list_elem_of_further _ _ _ Hk')). simpl in Hget.
    rewrite bool_decide_false in Hget; [done|]. by intros ->.
Qed.

(** X16. With one worker the summary is exact: every language, in the order
    of [LANGUAGES], is reported with the number of URLs, and the total is
    the number of requests announced at the start. *)
Theorem one_worker_summary_is_exact E self fuel schedule urls ev :
  visited_urls self = [] →
  max_workers self = 1%positive →
  get_urls_from_sitemap E self fuel = (Returned urls, ev) →
  urls ≠ [] →
  summary_lines (crawl E self fuel schedule).2
  = [CrawlCompleted]
      ++ map (λ n, LanguageCount n (length urls)) LANGUAGES.*1
      ++ [TotalProcessed (length urls * length LANGUAGES)].
Proof.
  intros Hfresh Hone Hrun Hne.
  destruct (crawl_summary_lines E self fuel schedule urls ev Hrun Hne) as [_ ->].
  assert (Hnd : NoDup urls).
  { apply get_urls_from_sitemap_returned in Hrun as (all & ? & _ & -> & _).
    apply NoDup_list_set. }
  rewrite (dict_all_same _ LANGUAGES.*1 (list_to_set urls)).
  - rewrite summary_lines_summary. unfold LANGUAGES. simpl.
    rewrite !size_list_to_set by done. do 9 f_equal. lia.
  - by apply executor_map_keys.
  - apply LANGUAGES_names_NoDup.
  - intros k ([n h] & -> & Hin)%list_elem_of_fmap.
    destruct (one_worker_counts_every_visit E self urls schedule n h)
      as (visited & Hget & -> & _); done.
Qed.

Lemma one_worker_summary_is_exact_witness :
  summary_lines (crawl Demo.site (init "/sitemap.xml" 1 30 1) 10 []).2
  = [CrawlCompleted]
      ++ map (λ n, LanguageCount n (length ["/p3"; "/p1"; "/p2"])) LANGUAGES.*1
      ++ [TotalProcessed (length ["/p3"; "/p1"; "/p2"] * length LANGUAGES)].
Proof.
  eapply (one_worker_summary_is_exact Demo.site (init "/sitemap.xml" 1 30 1) 10 []
            ["/p3"; "/p1"; "/p2"]).
  - reflexivity.
  - reflexivity.
  - vm_compute; reflexivity.
  - discriminate.
Defined.

(** ** The requests of a crawl *)



(** ** The languages of one URL, in order *)

















(** ** One worker runs the tasks in turn *)

Lemma run_task_stable E a b self w :
  (task_work w ≤ a)%nat → (task_work w ≤ b)%nat →
  run_task E a self w = run_task E b self w.
Proof.
  revert b self w. induction a as [|a IH]; intros b self w Ha Hb.
  { pose proof (task_work_pos w). lia. }
  destruct b as [|b]; [pose proof (task_work_pos w); lia|].
  rewrite !run_task_S.
  pose proof (worker_step_work E self w) as Hless.
  destruct (worker_step E self w) as [[self' [w'|]] ev]; [|done].
  simpl in Hless. rewrite (IH b self' w') by lia. done.
Qed.

Lemma worker_step_max_workers E self w self' w' ev :
  worker_step E self w = (self', w', ev) → max_workers self' = max_workers self.
Proof. intros Hstep%worker_step_config. by rewrite Hstep. Qed.

Lemma solo_outcome_step E choice p :
  max_workers (pool_self p) = 1%positive → (length (pool_workers p) ≤ 1)%nat →
  solo_outcome E (pool_step E choice p) = solo_outcome E p
  ∧ max_workers (pool_self (pool_step E choice p)) = 1%positive
  ∧ (length (pool_workers (pool_step E choice p)) ≤ 1)%nat.
Proof.
  destruct p as [self queue [|w [|w2 ws]] log]; simpl; intros Hmax Hlen; [| |lia].
  - unfold pool_step. cbn [pool_self pool_queue pool_workers pool_log length].
    rewrite Hmax. destruct queue as [|u queue].
    + rewrite lookup_nil. by split_and!.
    + rewrite bool_decide_true by (simpl; lia).
      rewrite bool_decide_true by done. simpl.
      split_and!; [|done|done].
      unfold solo_outcome. cbn [pool_self pool_queue pool_workers pool_log].
      cbn [process_in_turn]. unfold process_url_with_all_languages.
      change (task_work (new_task u)) with (6 * length LANGUAGES)%nat.
      destruct (run_task E _ self (new_task u)) as [self1 ev1].
      by destruct (process_in_turn E self1 queue).
  - unfold pool_step. cbn [pool_self pool_queue pool_workers pool_log length].
    rewrite Hmax. rewrite bool_decide_false by (simpl; lia). simpl.
    pose proof (worker_step_work E self w) as Hless.
    pose proof (worker_step_max_workers E self w) as Hsame.
    unfold solo_outcome. cbn [pool_self pool_queue pool_workers pool_log].
    destruct (task_work w) as [|m] eqn:Hm; [lia|]. rewrite run_task_S.
    destruct (worker_step E self w) as [[self' [w'|]] ev]; simpl in *.
    + rewrite (Hsame _ _ _ eq_refl). split_and!; [|done|done].
      rewrite (run_task_stable E (task_work w') m) by lia.
      destruct (run_task E m self' w') as [self1 ev1].
      destruct (process_in_turn E self1 queue).
      by rewrite <-!app_assoc.
    + rewrite (Hsame _ _ _ eq_refl). split_and!; [|done|lia].
      destruct (process_in_turn E self' queue).
      by rewrite <-!app_assoc.
Qed.

Lemma run_pool_solo E steps schedule p :
  max_workers (pool_self p) = 1%positive → (length (pool_workers p) ≤ 1)%nat →
  (pool_work p ≤ steps)%nat →
  run_pool E steps schedule p
  = Pool (solo_outcome E p).1 [] [] (solo_outcome E p).2.
Proof.
  revert schedule p. induction steps as [|steps IH]; intros schedule p Hmax Hlen Hwork.
  - unfold pool_work in Hwork.
    destruct p as [self [|u queue] [|w ws] log]; simpl in *; try lia.
    + unfold solo_outcome. simpl. by rewrite app_nil_r.
    + pose proof (task_work_pos w). lia.
  - simpl.
    destruct (solo_outcome_step E (hd 0 schedule) p Hmax Hlen) as (Hsolo & Hmax' & Hlen').
    rewrite IH, Hsolo; [done|done|done|].
    pose proof (pool_step_work E (hd 0 schedule) p). lia.
Qed.

Lemma executor_map_solo E self urls schedule :
  max_workers self = 1%positive →
  executor_map E self urls schedule
  = Pool (process_in_turn E self urls).1 [] [] (process_in_turn E self urls).2.
Proof.
  intros Hmax. unfold executor_map. rewrite run_pool_solo; [|done|simpl; lia|].
  - unfold solo_outcome. simpl. by destruct (process_in_turn E self urls).
  - unfold pool_work. simpl. lia.
Qed.

(** X19. With one worker a crawl does not depend on the schedule: it is the
    sequential program, the resolver, then the task of each URL in the
    order of the resolved list, one after the other on the same tracker,
    then the summary. *)
Theorem one_worker_crawl_is_sequential E self fuel schedule urls ev :
  max_workers self = 1%positive →
  get_urls_from_sitemap E self fuel = (Returned urls, ev) →
  urls ≠ [] →
  crawl E self fuel schedule
  = (Returned (process_in_turn E self urls).1,
     ev ++ [Log INFO (StartingCrawl (length urls * length LANGUAGES)
                        (length urls) (length LANGUAGES))]
        ++ (process_in_turn E self urls).2
        ++ summary (visited_urls (process_in_turn E self urls).1)).
Proof.
  intros Hmax Hrun Hne. unfold crawl. rewrite Hrun.
  destruct urls as [|u0 urls0] eqn:Hurls; [done|].
  rewrite <-Hurls in *. clear Hurls.
  by rewrite executor_map_solo.
Qed.

Lemma one_worker_crawl_is_sequential_witness :
  let self := init "/sitemap.xml" 1 30 1 in
  let urls := ["/p3"; "/p1"; "/p2"] in
  crawl Demo.site self 10 [3; 1; 4; 1; 5]
  = (Returned (process_in_turn Demo.site self urls).1,
     (get_urls_from_sitemap Demo.site self 10).2
        ++ [Log INFO (StartingCrawl (length urls * length LANGUAGES)
                        (length urls) (length LANGUAGES))]
        ++ (process_in_turn Demo.site self urls).2
        ++ summary (visited_urls (process_in_turn Demo.site self urls).1)).
Proof.
  apply (one_worker_crawl_is_sequential Demo.site (init "/sitemap.xml" 1 30 1) 10
           [3; 1; 4; 1; 5] ["/p3"; "/p1"; "/p2"]).
  - reflexivity.
  - vm_compute; reflexivity.
  - discriminate.
Defined.

(** ** No language ends with an empty set *)

Lemma dict_get_of_elem (d : list (string * gset string)) k v :
  NoDup d.*1 → (k, v) ∈ d → dict_get k d = Some v.
Proof.
  induction d as [|[k' v'] d IH]; [by intros _ ?%elem_of_nil|].
  rewrite fmap_cons. intros [Hk Hnd]%NoDup_cons Hin. simpl.
  apply elem_of_cons in Hin as [[= -> ->]|Hin].
  - by rewrite bool_decide_true.
  - rewrite bool_decide_false; [by apply IH|].
    intros ->. apply Hk. by apply (list_elem_of_fmap_2 fst) in Hin.
Qed.

Lemma worker_step_marked E name self w self' w' ev :
  task_ok w → key_ok (visited_urls self) w →
  worker_step E self w = (self', w', ev) →
  before 4 name w ∨ tracked name (visited_urls self) ≠ ∅ →
  tracked name (visited_urls self') ≠ ∅
  ∨ ∃ w'', w' = Some w'' ∧ before 4 name w''.
Proof.
  destruct w as [u [|[n h] rest] a].
  { rewrite worker_step_nil. intros _ _ ? [[]|?]; simplify_eq. by left. }
  intros Hok Hkey Hstep%worker_step_cases.
  apply task_ok_cons in Hok as (_ & Hn & _).
  unfold key_ok in Hkey. cbn [w_langs w_at] in Hkey.
  assert (Hget : a = InVisit TestVisited ∨ a = InVisit AddVisited →
                 is_Some (dict_get n (visited_urls self))).
  { intros Ha. by apply dict_get_keys, Hkey. }
  unfold before. cbn [w_langs w_at].
  assert (Hstay : ∀ a', (phase a' < 4)%nat →
            (n = name ∧ (phase a < 4)%nat) ∨ name ∈ rest.*1 →
            ∃ w'', Some (Worker u ((n, h) :: rest) a') = Some w''
                   ∧ match w_langs w'' with
                     | [] => False
                     | (n0, _) :: rest0 =>
                         (n0 = name ∧ (phase (w_at w'') < 4)%nat) ∨ name ∈ rest0.*1
                     end).
  { intros a' Ha' Hb. eexists. split; [done|]. simpl. destruct Hb as [[? _]|?]; auto. }
  destruct a as [[]|]; cbn [phase].
  - destruct Hstep as (-> & -> & ->). intros [Hb|?]; [right|by left].
    apply Hstay; [|done]. destruct (dict_mem _ _); simpl; lia.
  - destruct Hstep as (-> & -> & ->). cbn [visited_urls with_visited_urls].
    rewrite tracked_set. intros [Hb|Hne].
    + right. apply Hstay; [simpl; lia|done].
    + case_bool_decide; [|by left]. right. apply Hstay; [simpl; lia|].
      left. split; [done|simpl; lia].
  - destruct Hstep as [-> Hstep].
    destruct (dict_get n (visited_urls self)) as [visited|] eqn:Hd.
    2:{ destruct Hget as [? ?]; [by left|done]. }
    case_bool_decide as Hu; destruct Hstep as [-> ->].
    + intros [[[-> _]|Hb]|?]; [left| |by left].
      * unfold tracked. rewrite Hd. simpl. set_solver.
      * right. eexists. split; [done|]. simpl. by right.
    + intros [Hb|?]; [right|by left]. apply Hstay; [simpl; lia|done].
  - destruct (dict_get n (visited_urls self)) as [visited|] eqn:Hd.
    2:{ destruct Hget as [? ?]; [by right|done]. }
    destruct Hstep as (-> & -> & ->). cbn [visited_urls with_visited_urls].
    rewrite tracked_set. case_bool_decide as Hname; [intros _; left; set_solver|].
    intros [[[? _]|Hb]|?]; [done| |by left].
    right. eexists. split; [done|]. simpl. by right.
  - destruct Hstep as (-> & -> & ->). intros [[[_ ?]|Hb]|?]; [lia| |by left].
    right. eexists. split; [done|]. simpl. by right.
  - destruct Hstep as (-> & -> & ->). intros [[[_ ?]|Hb]|?]; [lia| |by left].
    right. destruct rest as [|[n2 h2] rest2]; [by apply elem_of_nil in Hb|].
    eexists. split; [done|]. simpl.
    rewrite fmap_cons in Hb. apply elem_of_cons in Hb as [->|?]; [left|by right].
    split; [done|lia].
Qed.

Lemma pool_step_marked E name hdr urls choice p :
  (name, hdr) ∈ LANGUAGES → pool_inv name hdr urls p →
  marked_or_ahead name p → marked_or_ahead name (pool_step E choice p).
Proof.
  intros HL Hinv. pose proof (inv_tasks _ _ _ _ Hinv) as Htasks.
  unfold marked_or_ahead, pool_step. destruct p as [self queue ws log].
  cbn [pool_log pool_queue pool_workers pool_self] in *.
  set (can_start := bool_decide _ && bool_decide _).
  set (i := choice `mod` _).
  destruct (ws !! i) as [w|] eqn:Hw.
  - destruct (worker_step E self w) as [[self' w'] ev] eqn:Hstep.
    cbn [pool_self pool_queue pool_workers].
    assert (Hin : w ∈ ws) by (by eapply list_elem_of_lookup_2).
    eapply Forall_forall in Htasks as [Hok Hkey]; [|exact Hin].
    pose proof (worker_step_marked E name self w self' w' ev Hok Hkey Hstep) as Hcase.
    assert (Hnew : tracked name (visited_urls self') ≠ ∅
                   ∨ (∃ w'', w' = Some w'' ∧ before 4 name w'') →
                   tracked name (visited_urls self') ≠ ∅ ∨ queue ≠ []
                   ∨ Exists (before 4 name)
                       (take i ws ++ option_list w' ++ drop (S i) ws)).
    { intros [?|(w'' & -> & ?)]; [by left|]. right; right.
      apply Exists_app. right. apply Exists_app. left. by constructor. }
    intros [Hne|[Hq|Hex]]; [by auto|by right; left|].
    rewrite <-(take_drop_middle ws i w Hw) in Hex.
    apply Exists_app in Hex as [Hex|Hex].
    { right; right. apply Exists_app. by left. }
    apply Exists_cons in Hex as [Hex|Hex]; [by auto|].
    right; right. apply Exists_app. right. apply Exists_app. by right.
  - destruct queue as [|u queue]; [done|]. destruct can_start; [|done].
    cbn [pool_self pool_queue pool_workers]. intros _. right; right.
    apply Exists_app. right. constructor.
    apply (before_new_task name hdr HL). lia.
Qed.

Lemma executor_map_marked E self urls schedule name hdr :
  (name, hdr) ∈ LANGUAGES → NoDup urls → urls ≠ [] → visited_urls self = [] →
  tracked name (visited_urls (pool_self (executor_map E self urls schedule))) ≠ ∅.
Proof.
  intros HL Hnd Hne Hfresh. unfold executor_map.
  destruct (run_pool_drains E (length urls * (2 + 6 * length LANGUAGES)) schedule
              (Pool self urls [] [])) as [Hq Hws].
  { unfold pool_work. simpl. lia. }
  assert (Hrun : ∀ steps schedule p,
            pool_inv name hdr urls p → marked_or_ahead name p →
            marked_or_ahead name (run_pool E steps schedule p)).
  { clear -HL. intros steps. induction steps as [|steps IH]; intros schedule p Hinv Hm; [done|].
    simpl. apply IH.
    - by apply pool_step_inv.
    - by eapply pool_step_marked. }
  destruct (Hrun (length urls * (2 + 6 * length LANGUAGES))%nat schedule
              (Pool self urls [] [])) as [?|[Hq'|Hex]].
  - by apply pool_inv_init.
  - by right; left.
  - done.
  - by rewrite Hq in Hq'.
  - rewrite Hws in Hex. by apply Exists_nil in Hex.
Qed.

(** X20. Under every schedule, a crawl from an empty tracker that resolved
    at least one URL leaves no language with an empty set: every count of
    the summary is at least 1, whatever a race resets. *)
Theorem every_language_counts_a_visit E self fuel schedule urls ev :
  visited_urls self = [] →
  get_urls_from_sitemap E self fuel = (Returned urls, ev) →
  urls ≠ [] →
  ∃ self',
    (crawl E self fuel schedule).1 = Returned self'
    ∧ Forall (λ item : string * gset string, (1 ≤ size item.2)%nat)
             (visited_urls self').
Proof.
  intros Hfresh Hrun Hne.
  destruct (crawl_summary_lines E self fuel schedule urls ev Hrun Hne) as [Hret _].
  eexists. split; [done|].
  assert (Hnd : NoDup urls).
  { apply get_urls_from_sitemap_returned in Hrun as (all & ? & _ & -> & _).
    apply NoDup_list_set. }
  pose proof (executor_map_keys E self urls schedule Hfresh Hnd Hne) as Hkeys.
  apply Forall_forall. intros [k v] Hin. simpl.
  assert (Hk : k ∈ LANGUAGES.*1).
  { rewrite <-Hkeys. by apply (list_elem_of_fmap_2 fst) in Hin. }
  apply list_elem_of_fmap in Hk as ([k' h] & -> & HL).
  pose proof (executor_map_marked E self urls schedule k' h HL Hnd Hne Hfresh) as Hm.
  unfold tracked in Hm. rewrite (dict_get_of_elem _ k' v) in Hm.
  - simpl in Hm. assert (size v ≠ 0); [|lia].
    apply size_non_empty_iff. by intros ?%leibniz_equiv.
  - rewrite Hkeys. apply LANGUAGES_names_NoDup.
  - done.
Qed.

Lemma every_language_counts_a_visit_witness :
  ∃ self',
    (crawl Demo.site Demo.crawler 10 [0; 1; 0; 1; 0; 0; 0; 1]).1 = Returned self'
    ∧ Forall (λ item : string * gset string, (1 ≤ size item.2)%nat)
             (visited_urls self').
Proof.
  eapply (every_language_counts_a_visit Demo.site Demo.crawler 10
            [0; 1; 0; 1; 0; 0; 0; 1] ["/p3"; "/p1"; "/p2"]).
  - reflexivity.
  - vm_compute; reflexivity.
  - discriminate.
Defined.
